(** * AeroSandbox: a shallow embedding of the analysis life cycle

    The development follows the Python sources:
    - [aerosandbox/common.py]: [AeroSandboxObject] (solution substitution,
      analysis-specific options) and [ImplicitAnalysis] (the [initialize]
      decorator and the [opti] / [opti_provided] properties);
    - [aerosandbox/geometry/airplane.py]: [Airplane.__init__],
      [Airplane.is_entirely_symmetric] and [Airplane.aerodynamic_center];
    - [aerosandbox/library/propulsion_electric.py]:
      [motor_electric_performance].

    Python floats are IEEE 754 binary64 numbers and are embedded as Rocq's
    primitive floats; Python objects live in a store indexed by locations, so
    that in-place mutation and aliasing are visible. *)

From Stdlib Require Import Floats.PrimFloat.
From Stdlib Require Floats.FloatOps Floats.FloatAxioms.
From stdpp Require Import gmap strings list.

#[global] Set Warnings "-register-all,-clear-no-such-hyp".

(** ** Exceptions and results *)

(** The message of the [ValueError] raised by
    [validate_analysis_specific_options]: the holes of its f-string. *)
Record option_error := OptionError {
  bad_key : string;            (* {key} *)
  for_object : string;         (* {self}: the class of the receiving object *)
  within_analysis : string;    (* {analysis} *)
  valid_options : list string  (* {tuple(analysis_specific_options.keys())} *)
}.

Inductive exn :=
  | AssertionError (msg : string)
  | ZeroDivisionError
  | TypeError
  | AttributeError
  | NotImplementedError
  | IndexError
  | KeyError (key : string)
  | ValueError (msg : option_error)
  | RuntimeError
  | ImplicitAnalysisInitError.

(** A computation either returns a value or raises. *)
Inductive res (A : Type) :=
  | Ok (a : A)
  | Raise (e : exn).
Arguments Ok {A} a.
Arguments Raise {A} e.

#[global] Instance res_ret : MRet res := fun A a => Ok a.
#[global] Instance res_bind : MBind res := fun A B f m =>
  match m with
  | Ok a => f a
  | Raise e => Raise e
  end.

(** [assert cond, msg] *)
Definition py_assert (cond : bool) (msg : string) : res unit :=
  if cond then Ok tt else Raise (AssertionError msg).

(** ** Python values

    Objects are referred to by their location in the store ([VRef]); numbers,
    strings, lists and tuples are values.  [VSym] is a symbolic expression of
    the optimization environment (a CasADi expression node), identified by a
    handle. *)
Definition loc := nat.
Definition sym := nat.

Inductive pyval :=
  | VNone
  | VBool (b : bool)
  | VInt (n : Z)
  | VFloat (x : float)
  | VStr (s : string)
  | VSym (e : sym)
  | VList (items : list pyval)
  | VTuple (items : list pyval)
  | VRef (l : loc).

(** [x is None] *)
Definition is_None (v : pyval) : bool :=
  match v with VNone => true | _ => false end.

(** ** Dictionaries with string keys

    A Python [dict] keeps its keys in insertion order; assigning to a key that
    is present replaces the value where it stands. *)
Module Dict.
Section Dict.
Context {V : Type}.

Definition t := list (string * V).

Definition keys (d : t) : list string := d.*1.

Fixpoint get (d : t) (k : string) : option V :=
  match d with
  | [] => None
  | (k', v) :: d' => if decide (k' = k) then Some v else get d' k
  end.

(** [k in d.keys()] *)
Definition mem (d : t) (k : string) : bool :=
  match get d k with Some _ => true | None => false end.

(** [d[k] = v] *)
Fixpoint set (d : t) (k : string) (v : V) : t :=
  match d with
  | [] => [(k, v)]
  | (k', v') :: d' =>
      if decide (k' = k) then (k', v) :: d' else (k', v') :: set d' k v
  end.

(** [d[k]], raising [KeyError] when the key is missing. *)
Definition subscript (d : t) (k : string) : res V :=
  match get d k with
  | Some v => Ok v
  | None => Raise (KeyError k)
  end.
End Dict.
Arguments t : clear implicits.
End Dict.

(** ** Float arithmetic, as Python evaluates it

    [+], [-] and [*] on floats never raise; [/] raises [ZeroDivisionError]
    when the divisor compares equal to zero. *)
Module PyFloat.

Definition is_zero (x : float) : bool := PrimFloat.eqb x 0%float.

Definition truediv (a b : float) : res float :=
  if is_zero b then Raise ZeroDivisionError else Ok (PrimFloat.div a b).

(** An operand that is still [None] makes arithmetic raise [TypeError]. *)
Definition operand (v : option float) : res float :=
  match v with
  | Some x => Ok x
  | None => Raise TypeError
  end.

(** [numpy.pi], the double nearest to pi: 3.141592653589793. *)
Definition pi : float := 0x1.921fb54442d18p+1%float.

End PyFloat.

(** ** [motor_electric_performance] (library/propulsion_electric.py) *)
Module Motor.
Import PyFloat.

(** The local variables of the function: the four quantities, each [None]
    until supplied or derived, and their [_known] flags. *)
Record locals := Locals {
  voltage : option float;
  current : option float;
  rpm : option float;
  torque : option float;
  voltage_known : bool;
  current_known : bool;
  rpm_known : bool;
  torque_known : bool
}.

Definition is_not_None {A} (o : option A) : bool :=
  match o with Some _ => true | None => false end.

Definition all_known (s : locals) : bool :=
  voltage_known s && current_known s && rpm_known s && torque_known s.

Section Body.
Variables (kv_rads_per_sec_per_volt resistance no_load_current : float).

(** [if rpm_known: if current_known and not voltage_known: ...] *)
Definition step_voltage (s : locals) : res locals :=
  if rpm_known s && (current_known s && negb (voltage_known s)) then
    r ← operand (rpm s);
    speed ← truediv (r * pi) 30;
    back_EMF_voltage ← truediv speed kv_rads_per_sec_per_volt;
    i ← operand (current s);
    let v := (back_EMF_voltage + i * resistance)%float in
    Ok (Locals (Some v) (current s) (rpm s) (torque s)
               true (current_known s) (rpm_known s) (torque_known s))
  else Ok s.

(** [if torque_known: if not current_known: ...] *)
Definition step_current_from_torque (s : locals) : res locals :=
  if torque_known s && negb (current_known s) then
    t ← operand (torque s);
    let i := (t * kv_rads_per_sec_per_volt + no_load_current)%float in
    Ok (Locals (voltage s) (Some i) (rpm s) (torque s)
               (voltage_known s) true (rpm_known s) (torque_known s))
  else Ok s.

(** [if voltage_known: if rpm_known and not current_known: ...] *)
Definition step_current_from_voltage (s : locals) : res locals :=
  if voltage_known s && (rpm_known s && negb (current_known s)) then
    r ← operand (rpm s);
    speed ← truediv (r * pi) 30;
    back_EMF_voltage ← truediv speed kv_rads_per_sec_per_volt;
    v ← operand (voltage s);
    i ← truediv (v - back_EMF_voltage) resistance;
    Ok (Locals (voltage s) (Some i) (rpm s) (torque s)
               (voltage_known s) true (rpm_known s) (torque_known s))
  else Ok s.

(** [if voltage_known: ... if not rpm_known and current_known: ...] *)
Definition step_rpm (s : locals) : res locals :=
  if voltage_known s && (negb (rpm_known s) && current_known s) then
    v ← operand (voltage s);
    i ← operand (current s);
    let back_EMF_voltage := (v - i * resistance)%float in
    let speed := (back_EMF_voltage * kv_rads_per_sec_per_volt)%float in
    r ← truediv (speed * 30) pi;
    Ok (Locals (voltage s) (current s) (Some r) (torque s)
               (voltage_known s) (current_known s) true (torque_known s))
  else Ok s.

(** [if current_known: if not torque_known: ...] *)
Definition step_torque (s : locals) : res locals :=
  if current_known s && negb (torque_known s) then
    i ← operand (current s);
    t ← truediv (i - no_load_current) kv_rads_per_sec_per_volt;
    Ok (Locals (voltage s) (current s) (rpm s) (Some t)
               (voltage_known s) (current_known s) (rpm_known s) true)
  else Ok s.

(** One pass through the body of the [while] loop. *)
Definition loop_body (s : locals) : res locals :=
  s ← step_voltage s;
  s ← step_current_from_torque s;
  s ← step_current_from_voltage s;
  s ← step_rpm s;
  step_torque s.

(** [while not (voltage_known and current_known and rpm_known and
    torque_known)]: [max_iter] bounds the number of passes through the
    body; [None] means that the bound was reached with the condition
    still true. *)
Fixpoint while_loop (max_iter : nat) (s : locals) : option (res locals) :=
  if all_known s then Some (Ok s)
  else match max_iter with
       | O => None
       | S n =>
           match loop_body s with
           | Ok s' => while_loop n s'
           | Raise e => Some (Raise e)
           end
       end.
End Body.

(** The returned tuple [(voltage, current, rpm, torque, efficiency)]. *)
Record performance := Performance {
  out_voltage : float;
  out_current : float;
  out_rpm : float;
  out_torque : float;
  out_efficiency : float
}.

Definition efficiency_of (s : locals) : res performance :=
  r ← operand (rpm s);
  t ← operand (torque s);
  v ← operand (voltage s);
  i ← operand (current s);
  shaft ← truediv (r * pi) 30;
  efficiency ← truediv (shaft * t) (v * i);
  Ok (Performance v i r t efficiency).

Definition exactly_two (v i r t : bool) : bool :=
  Nat.eqb (Nat.b2n v + Nat.b2n i + Nat.b2n r + Nat.b2n t) 2.

Definition motor_electric_performance (max_iter : nat)
    (voltage current rpm torque : option float)
    (kv resistance no_load_current : float) : option (res performance) :=
  let voltage_known := is_not_None voltage in
  let current_known := is_not_None current in
  let rpm_known := is_not_None rpm in
  let torque_known := is_not_None torque in
  match py_assert (exactly_two voltage_known current_known rpm_known torque_known)
          "You must give exactly two input arguments." with
  | Raise e => Some (Raise e)
  | Ok _ =>
  match py_assert (negb (current_known && torque_known))
          "You cannot supply the combination of current and torque - this makes for an ill-posed problem." with
  | Raise e => Some (Raise e)
  | Ok _ =>
  match truediv (kv * pi) 30 with
  | Raise e => Some (Raise e)
  | Ok kv_rads_per_sec_per_volt =>
  match while_loop kv_rads_per_sec_per_volt resistance no_load_current max_iter
          (Locals voltage current rpm torque
                  voltage_known current_known rpm_known torque_known) with
  | None => None
  | Some (Raise e) => Some (Raise e)
  | Some (Ok s) => Some (efficiency_of s)
  end end end end.

(** The default keyword arguments [kv=1000, resistance=0.1,
    no_load_current=0.4]. *)
Definition default_kv : float := 1000.
Definition default_resistance : float := 0x1.999999999999ap-4.
Definition default_no_load_current : float := 0x1.999999999999ap-2.

End Motor.

(** ** Analysis-specific options ([AeroSandboxObject], common.py) *)
Module Options.

(** An analysis class, as far as option handling looks at it: the class
    attributes [option_keys] (per class of geometry object, the names of the
    options it understands) and [default_analysis_specific_options]. *)
Record analysis := Analysis {
  analysis_name : string;
  option_keys : Dict.t (list string);
  default_analysis_specific_options : Dict.t pyval
}.

(** [{key: analysis.default_analysis_specific_options[key] for key in keys}] *)
Fixpoint defaults_for (an : analysis) (keys : list string)
    (acc : Dict.t pyval) : res (Dict.t pyval) :=
  match keys with
  | [] => Ok acc
  | key :: keys' =>
      v ← Dict.subscript (default_analysis_specific_options an) key;
      defaults_for an keys' (Dict.set acc key v)
  end.

(** [for key, value in analysis_specific_options_user.items(): ...] *)
Fixpoint override (cls : string) (an : analysis)
    (user : list (string * pyval)) (opts : Dict.t pyval) : res (Dict.t pyval) :=
  match user with
  | [] => Ok opts
  | (key, value) :: user' =>
      if Dict.mem opts key then override cls an user' (Dict.set opts key value)
      else Raise (ValueError (OptionError key cls (analysis_name an) (Dict.keys opts)))
  end.

(** [cls.validate_analysis_specific_options(analysis, user)]; a classmethod,
    so [self] is the class [cls] of the receiving object. *)
Definition validate_analysis_specific_options (cls : string) (an : analysis)
    (analysis_specific_options_user : Dict.t pyval) : res (Dict.t pyval) :=
  keys ← Dict.subscript (option_keys an) cls;
  analysis_specific_options ← defaults_for an keys [];
  match analysis_specific_options_user with
  | [] => Ok analysis_specific_options      (* an empty dict is falsy *)
  | _ => override cls an analysis_specific_options_user analysis_specific_options
  end.

(** The outer dictionary [{analysis: {option: value}}] is keyed by analysis
    classes. *)
Definition options_dict := list (analysis * Dict.t pyval).

(** [cls.parse_analysis_specific_options(d)]: every entry is replaced by its
    validated form, in order. *)
Fixpoint parse_analysis_specific_options (cls : string)
    (d : options_dict) : res options_dict :=
  match d with
  | [] => Ok []
  | (an, user) :: d' =>
      validated ← validate_analysis_specific_options cls an user;
      rest ← parse_analysis_specific_options cls d';
      Ok ((an, validated) :: rest)
  end.

(** [analysis in d.keys()] and [d[analysis]]: classes are compared by
    identity, which the class name stands for. *)
Fixpoint lookup_analysis (d : options_dict) (an : analysis) : option (Dict.t pyval) :=
  match d with
  | [] => None
  | (an', o) :: d' =>
      if decide (analysis_name an' = analysis_name an) then Some o
      else lookup_analysis d' an
  end.

(** [self.get_analysis_specific_options(analysis)], for an object of class
    [cls] whose attribute [analysis_specific_options] is [d]. *)
Definition get_analysis_specific_options (cls : string) (d : options_dict)
    (an : analysis) : res (Dict.t pyval) :=
  match lookup_analysis d an with
  | None => validate_analysis_specific_options cls an []
  | Some o => Ok o
  end.

End Options.

(** ** [Airplane.__init__] (geometry/airplane.py) *)
Module Airplane.
Import Options.

Section Airplane.
(** The classes [Wing] and [Fuselage] are defined elsewhere in the
    package; the constructor only calls three methods of the first wing,
    each of which may raise. *)
Context {Wing Fuselage : Type}.
Variable area : Wing -> res pyval.
Variable mean_aerodynamic_chord : Wing -> res pyval.
Variable span : Wing -> res pyval.

Record airplane := Build {
  name : string;
  xyz_ref : list float;
  wings : list Wing;
  fuselages : list Fuselage;
  s_ref : pyval;
  c_ref : pyval;
  b_ref : pyval;
  analysis_specific_options : options_dict
}.

(** [if ref is None: ref = method(main_wing)] inside the [try] block:
    [IndexError] is handled by [except IndexError: pass], which leaves
    the reference values as they are at that point ([on_index_error]);
    any other exception leaves the constructor. *)
Definition populate (ref : pyval) (method : Wing -> res pyval)
    (main_wing : Wing) (on_index_error : res (pyval * pyval * pyval))
    (k : pyval -> res (pyval * pyval * pyval)) : res (pyval * pyval * pyval) :=
  if is_None ref then
    match method main_wing with
    | Ok v => k v
    | Raise IndexError => on_index_error
    | Raise e => Raise e
    end
  else k ref.

(** The block [## Assign reference values]. *)
Definition assign_reference_values (wings : list Wing)
    (s_ref c_ref b_ref : pyval) : res (pyval * pyval * pyval) :=
  match wings with
  | [] => Ok (s_ref, c_ref, b_ref)        (* self.wings[0] raises IndexError *)
  | main_wing :: _ =>
      populate s_ref area main_wing (Ok (s_ref, c_ref, b_ref)) (fun s_ref =>
      populate c_ref mean_aerodynamic_chord main_wing (Ok (s_ref, c_ref, b_ref)) (fun c_ref =>
      populate b_ref span main_wing (Ok (s_ref, c_ref, b_ref)) (fun b_ref =>
      Ok (s_ref, c_ref, b_ref))))
  end.

(** [Airplane(name, xyz_ref, wings, fuselages, s_ref, c_ref, b_ref,
    analysis_specific_options)]; an omitted argument is [None] (for the
    reference values, [VNone]). *)
Definition init (name : string) (xyz_ref : list float)
    (wings : option (list Wing)) (fuselages : option (list Fuselage))
    (s_ref c_ref b_ref : pyval)
    (analysis_specific_options : options_dict) : res airplane :=
  let wings := match wings with Some ws => ws | None => [] end in
  let fuselages := match fuselages with Some fs => fs | None => [] end in
  '(s_ref, c_ref, b_ref) ← assign_reference_values wings s_ref c_ref b_ref;
  parsed ← parse_analysis_specific_options "Airplane" analysis_specific_options;
  Ok (Build name xyz_ref wings fuselages s_ref c_ref b_ref parsed).

End Airplane.

(** The defaults of the keyword arguments. *)
Definition default_name : string := "Untitled".
Definition default_xyz_ref : list float := [0%float; 0%float; 0%float].
Definition default_analysis_specific_options : options_dict := [].

End Airplane.

(** ** The object store *)

(** Modelled from the spec: the optimization environment
    [aerosandbox.optimization.opti.Opti] is missing.  Its interface is
    [new_variable(initial_guess, lower_bound?, upper_bound?)],
    [add_constraint(relation)], [solve() -> Solution] and
    [Solution.value(expr) -> float]; this is the declaration of a decision
    variable. *)
Record variable_decl := VariableDecl {
  initial_guess : float;
  lower_bound : option float;
  upper_bound : option float
}.

(** Modelled from the spec: the state of the missing optimization
    environment, a shared accumulator of decision variables and constraints
    to which analyses only add. *)
Record opti_state := OptiState {
  decision_variables : list variable_decl;
  constraints : list pyval
}.

(** Modelled from the spec: [Opti()], the missing constructor of an
    environment, which has no variable and no constraint yet. *)
Definition empty_opti : opti_state := OptiState [] [].

(** Modelled from the spec: the missing [Solution] is known by its method
    [value(expr)], which returns a number, or raises when it cannot evaluate
    its argument. *)
Definition solution := pyval -> res pyval.

(** What a location of the store holds. *)
Inductive pyobj :=
  | Instance (attrs : Dict.t pyval)   (* an AeroSandboxObject: its [__dict__] *)
  | Environment (st : opti_state)     (* an optimization environment *)
  | Foreign.                          (* any other object *)

Abbreviation heap := (gmap loc pyobj).

(** A call returns a value, raises, or exceeds the recursion depth allowed
    to it (Python's [RecursionError], which no handler below catches); the
    store as the call left it comes with the first two. *)
Inductive outcome (S A : Type) :=
  | Returns (a : A) (s : S)
  | Raises (e : exn) (s : S)
  | TooDeep.
Arguments Returns {S A} a s.
Arguments Raises {S A} e s.
Arguments TooDeep {S A}.

Module Store.

(** The [__dict__] of the object at [l]. *)
Definition dict_of (h : heap) (l : loc) : option (Dict.t pyval) :=
  match h !! l with
  | Some (Instance attrs) => Some attrs
  | _ => None
  end.

(** [self.__dict__[name]], if any. *)
Definition attr (h : heap) (l : loc) (name : string) : option pyval :=
  attrs ← dict_of h l; Dict.get attrs name.

(** [setattr(self, name, value)] for a plain instance attribute. *)
Definition setattr (l : loc) (name : string) (value : pyval) (h : heap) : heap :=
  match h !! l with
  | Some (Instance attrs) => <[l := Instance (Dict.set attrs name value)]> h
  | _ => h
  end.

(** Allocation of a new object. *)
Definition alloc (o : pyobj) (h : heap) : loc * heap :=
  let l := fresh (dom h) in (l, <[l := o]> h).

End Store.

(** ** [AeroSandboxObject.substitute_solution] (common.py) *)
Module AeroSandboxObject.
Import Store.

(** [isinstance(v, bool) or isinstance(v, int) or isinstance(v, float)] *)
Definition is_number (v : pyval) : bool :=
  match v with
  | VBool _ | VInt _ | VFloat _ => true
  | _ => false
  end.

Section Substitution.
Variable sol : solution.

Section Convert.
(** [item.substitute_solution(sol)], one level further down. *)
Variable method : loc -> heap -> outcome heap pyval.

(** The local function [convert] of [substitute_solution]. *)
Fixpoint convert (item : pyval) (h : heap) : outcome heap pyval :=
  let comprehension :=
    (* [convert(i) for i in item] *)
    fix each (items : list pyval) (h : heap) : outcome heap (list pyval) :=
      match items with
      | [] => Returns [] h
      | i :: rest =>
          match convert i h with
          | Returns v h1 =>
              match each rest h1 with
              | Returns vs h2 => Returns (v :: vs) h2
              | Raises e h2 => Raises e h2
              | TooDeep => TooDeep
              end
          | Raises e h1 => Raises e h1
          | TooDeep => TooDeep
          end
      end in
  match sol item with
  | Ok v => Returns v h                        (* return sol.value(item) *)
  | Raise NotImplementedError =>
      match item with
      | VRef l =>
          match h !! l with
          | Some (Instance _) =>
              (* return item.substitute_solution(sol) *)
              match method l h with
              | Raises AttributeError h' => Returns item h'
              | r => r
              end
          | _ => Returns item h                (* AttributeError: pass *)
          end
      | VList items | VTuple items =>
          match comprehension items h with
          | Returns vs h' => Returns (VList vs) h'
          | Raises e h' => Raises e h'
          | TooDeep => TooDeep
          end
      | _ => Returns item h
      end
  | Raise e => Raises e h
  end.

(** [for attrib_name in self.__dict__.keys(): ...] *)
Fixpoint each_attribute (self : loc) (names : list string) (h : heap)
    : outcome heap unit :=
  match names with
  | [] => Returns tt h
  | attrib_name :: names' =>
      match attr h self attrib_name with
      | None => Raises AttributeError h
      | Some attrib_value =>
          if is_number attrib_value then each_attribute self names' h
          else
            match convert attrib_value h with
            | Returns v h' =>
                each_attribute self names' (setattr self attrib_name v h')
            | Raises TypeError h' | Raises AttributeError h' =>
                each_attribute self names' h'
            | Raises e h' => Raises e h'
            | TooDeep => TooDeep
            end
      end
  end.
End Convert.

(** [self.substitute_solution(sol)]; [depth] bounds the depth of the
    nested method calls. *)
Fixpoint substitute_solution (depth : nat) (self : loc) (h : heap)
    : outcome heap pyval :=
  match depth with
  | O => TooDeep
  | S depth' =>
      match dict_of h self with
      | None => Raises AttributeError h
      | Some attrs =>
          match each_attribute (substitute_solution depth') self (Dict.keys attrs) h with
          | Returns _ h' => Returns (VRef self) h'      (* return self *)
          | Raises e h' => Raises e h'
          | TooDeep => TooDeep
          end
      end
  end.
End Substitution.

End AeroSandboxObject.

(** ** [ImplicitAnalysis] (common.py) *)

(** The calls that the constructor makes on behalf of its caller are kept in
    a log next to the store. *)
Inductive call :=
  | CallSolve (env : loc)          (* [env.solve()] *)
  | CallSubstitute (obj : loc).    (* [obj.substitute_solution(sol)] *)

Record world := World {
  store : heap;
  calls : list call
}.

Module ImplicitAnalysis.
Import Store.

(** The property [opti]: [return self._opti], with [AttributeError] turned
    into [ImplicitAnalysisInitError]. *)
Definition opti (self : loc) (h : heap) : res pyval :=
  match attr h self "_opti" with
  | Some v => Ok v
  | None => Raise ImplicitAnalysisInitError
  end.

(** [self.opti = value] *)
Definition set_opti (self : loc) (value : pyval) (h : heap) : heap :=
  setattr self "_opti" value h.

(** The property [opti_provided]. *)
Definition opti_provided (self : loc) (h : heap) : res pyval :=
  match attr h self "_opti_provided" with
  | Some v => Ok v
  | None => Raise ImplicitAnalysisInitError
  end.

(** [self.opti_provided = value] *)
Definition set_opti_provided (self : loc) (value : pyval) (h : heap) : heap :=
  setattr self "_opti_provided" value h.

(** Truth value of an object, as [not] tests it. *)
Definition truthy (v : pyval) : bool :=
  match v with
  | VNone => false
  | VBool b => b
  | VInt n => negb (Z.eqb n 0)
  | VFloat x => negb (PyFloat.is_zero x)
  | VStr s => negb (String.eqb s "")
  | VList items | VTuple items => negb (Nat.eqb (length items) 0)
  | VSym _ | VRef _ => true
  end.

(** The environment that a value refers to, if it is one. *)
Definition environment_of (h : heap) (v : pyval) : option (loc * opti_state) :=
  match v with
  | VRef o =>
      match h !! o with
      | Some (Environment st) => Some (o, st)
      | _ => None
      end
  | _ => None
  end.

Section Initialize.
(** [Opti.solve], which raises when the solver fails. *)
Variable solve : opti_state -> res solution.
(** [opti.x.shape], the shape of the vector of the variables that the
    environment optimizes over; what belongs to that vector is the
    business of the environment's class, which is defined elsewhere. *)
Variable x_shape : opti_state -> nat * nat.
(** The bound on the depth of nested [substitute_solution] calls. *)
Variable depth : nat.
(** The decorated [__init__], applied to its arguments [*args] and
    [**kwargs]. *)
Variable init_method : loc -> heap -> outcome heap unit.

(** [sol = env.solve(); obj.substitute_solution(sol)], for an environment
    in state [st]. *)
Definition solve_and_substitute (obj env : loc) (st : opti_state)
    (h : heap) (log : list call) : outcome world unit :=
  match solve st with
  | Raise e => Raises e (World h (log ++ [CallSolve env]))
  | Ok sol =>
      let log := log ++ [CallSolve env; CallSubstitute obj] in
      match AeroSandboxObject.substitute_solution sol depth obj h with
      | Returns _ h' => Returns tt (World h' log)
      | Raises e h' => Raises e (World h' log)
      | TooDeep => TooDeep
      end
  end.

(** [init_wrapped(self, *args, opti=None, **kwargs)], the function that
    [ImplicitAnalysis.initialize] puts in the place of [__init__]. *)
Definition init_wrapped (self : loc) (opti_arg : option loc) (w : world)
    : outcome world unit :=
  let '(env, provided, h) :=
    match opti_arg with
    | None =>
        let '(env, h) := alloc (Environment empty_opti) (store w) in
        (env, false, h)
    | Some env => (env, true, store w)
    end in
  let h := set_opti self (VRef env) h in
  let h := set_opti_provided self (VBool provided) h in
  match init_method self h with
  | Raises e h => Raises e (World h (calls w))
  | TooDeep => TooDeep
  | Returns _ h =>
      (* if not self.opti_provided and not self.opti.x.shape == (0, 1) *)
      match opti_provided self h with
      | Raise e => Raises e (World h (calls w))
      | Ok p =>
          if truthy p then Returns tt (World h (calls w))
          else
            match opti self h with
            | Raise e => Raises e (World h (calls w))
            | Ok v =>
                match environment_of h v with
                | None => Raises AttributeError (World h (calls w))
                | Some (env, st) =>
                    if decide (x_shape st = (0, 1)) then Returns tt (World h (calls w))
                    else solve_and_substitute self env st h (calls w)
                end
            end
      end
  end.

(** The caller's side of a shared environment:
    [opti = Opti(); Analysis(..., opti=opti); sol = opti.solve();
     analysis.substitute_solution(sol)]. *)
Definition supplied_then_solved (self : loc) (w : world) : outcome world unit :=
  let '(env, h) := alloc (Environment empty_opti) (store w) in
  match init_wrapped self (Some env) (World h (calls w)) with
  | Returns _ w' =>
      match store w' !! env with
      | Some (Environment st) => solve_and_substitute self env st (store w') (calls w')
      | _ => Raises AttributeError w'
      end
  | r => r
  end.
End Initialize.

End ImplicitAnalysis.

(** ** The usage example of [ImplicitAnalysis.initialize]

    [self.a = self.opti.variable(init_guess=1)],
    [self.b = self.opti.variable(init_guess=2)] and
    [self.opti.subject_to(self.a == self.b ** 2)]; the symbols are numbered
    in the order of their creation. *)
Module MyAnalysis.
Import Store ImplicitAnalysis.

(** [self.<name> = self.opti.variable(init_guess)] *)
Definition new_variable (self : loc) (name : string) (init_guess : float)
    (h : heap) : outcome heap unit :=
  match opti self h with
  | Raise e => Raises e h
  | Ok v =>
      match environment_of h v with
      | None => Raises AttributeError h
      | Some (env, st) =>
          let x := VSym (length (decision_variables st)) in
          let st' := OptiState (decision_variables st ++ [VariableDecl init_guess None None])
                               (constraints st) in
          Returns tt (setattr self name x (<[env := Environment st']> h))
      end
  end.

(** [self.opti.subject_to(relation)] *)
Definition subject_to (self : loc) (relation : pyval) (h : heap) : outcome heap unit :=
  match opti self h with
  | Raise e => Raises e h
  | Ok v =>
      match environment_of h v with
      | None => Raises AttributeError h
      | Some (env, st) =>
          let st' := OptiState (decision_variables st) (constraints st ++ [relation]) in
          Returns tt (<[env := Environment st']> h)
      end
  end.

(** The handle of the expression [self.a == self.b ** 2]. *)
Definition governing_equation : pyval := VSym 2.

Definition init_method (self : loc) (h : heap) : outcome heap unit :=
  match new_variable self "a" 1 h with
  | Returns _ h =>
      match new_variable self "b" 2 h with
      | Returns _ h => subject_to self governing_equation h
      | r => r
      end
  | r => r
  end.

(** The shape of [opti.x] for the environments of the examples: the
    governing equation mentions every variable of its analysis, and an
    environment without a constraint optimizes over nothing. *)
Definition x_shape (st : opti_state) : nat * nat :=
  match constraints st with
  | [] => (0, 1)
  | _ => (length (decision_variables st), 1)
  end.

(** A solver for this problem: [a = b = 1] satisfies [a == b ** 2]; it
    fails on any other problem. *)
Definition value (item : pyval) : res pyval :=
  match item with
  | VSym 0 | VSym 1 => Ok (VFloat 1)
  | VSym _ => Ok (VFloat 0)
  | VFloat x => Ok (VFloat x)
  | _ => Raise NotImplementedError
  end.

Definition solve (st : opti_state) : res solution :=
  match decision_variables st, constraints st with
  | [_; _], [_] => Ok value
  | _, _ => Raise RuntimeError
  end.




(** A solution that, as an array library does, also takes a list of one
    number for that number. *)
Definition array_value (item : pyval) : res pyval :=
  match item with
  | VList [VFloat x] => Ok (VFloat x)
  | _ => value item
  end.

End MyAnalysis.

(** ** Vocabulary for the statements about the motor and the options *)
Module MotorSpec.
Import Motor.

Definition keeps (supplied : option float) (returned : float) : Prop :=
  match supplied with Some x => returned = x | None => True end.

Definition returns_all (v i r t : option float) (out : res performance) : Prop :=
  exists p, out = Ok p /\ keeps v (out_voltage p) /\ keeps i (out_current p)
            /\ keeps r (out_rpm p) /\ keeps t (out_torque p).

Definition well_posed (v i r t : option float) : bool :=
  exactly_two (is_not_None v) (is_not_None i) (is_not_None r) (is_not_None t)
  && negb (is_not_None i && is_not_None t).

(** Whether the loop meets a division by zero: it divides by
    [kv * pi / 30] for every pair of supplied quantities but voltage with
    torque, and by the resistance for voltage with rpm. *)
Definition loop_divides_by_zero (v i r t : option float)
    (kv resistance : float) : bool :=
  (PyFloat.is_zero (kv * PyFloat.pi / 30)
   && negb (is_not_None v && is_not_None t))
  || (PyFloat.is_zero resistance && (is_not_None v && is_not_None r)).

End MotorSpec.

Module OptionsSpec.
Import Options.

(** An analysis declares options for a class when [option_keys] has an entry
    for the class and every key listed there has a default. *)
Definition declares (an : analysis) (cls : string) (keys : list string) : Prop :=
  Dict.get (option_keys an) cls = Some keys /\
  forall k, k ∈ keys -> is_Some (Dict.get (default_analysis_specific_options an) k).

(** [k] is a valid option for objects of class [cls] under analysis [an]. *)
Definition valid_option (an : analysis) (cls k : string) : Prop :=
  exists keys, Dict.get (option_keys an) cls = Some keys /\ k ∈ keys.

End OptionsSpec.

(** ** Vocabulary for the statements about substitution *)
Module Solved.
Import Store AeroSandboxObject.

(** What the statements assume of a solution: a symbolic expression
    evaluates to a number, a number evaluates to a number (a float to
    itself) when it is accepted at all, and nothing else is an expression. *)
Definition evaluates (sol : solution) : Prop :=
  forall v,
    match v with
    | VSym _ => exists x, sol v = Ok (VFloat x)
    | VFloat x => sol v = Ok (VFloat x) \/ sol v = Raise NotImplementedError
    | VBool _ | VInt _ =>
        (exists x, sol v = Ok (VFloat x)) \/ sol v = Raise NotImplementedError
    | VNone | VStr _ | VList _ | VTuple _ | VRef _ =>
        sol v = Raise NotImplementedError
    end.

(** The value that takes the place of [v]: symbolic expressions are
    replaced by their numbers, inside lists and tuples too (which both come
    back as lists); references stay. *)
Fixpoint solved (sol : solution) (v : pyval) : pyval :=
  match sol v with
  | Ok v' => v'
  | Raise _ =>
      match v with
      | VList items | VTuple items => VList (List.map (solved sol) items)
      | _ => v
      end
  end.

(** The same for the value of an attribute: numbers are skipped. *)
Definition solved_attr (sol : solution) (v : pyval) : pyval :=
  if is_number v then v else solved sol v.

Definition solved_dict (sol : solution) (attrs : Dict.t pyval) : Dict.t pyval :=
  List.map (fun kv => (kv.1, solved_attr sol kv.2)) attrs.

(** No symbolic expression is left in [v], lists and tuples included. *)
Fixpoint sym_free (v : pyval) : bool :=
  match v with
  | VSym _ => false
  | VList items | VTuple items => forallb sym_free items
  | _ => true
  end.

(** The objects that [v] refers to, inside lists and tuples too. *)
Fixpoint refs (v : pyval) : list loc :=
  match v with
  | VRef l => [l]
  | VList items | VTuple items => concat (List.map refs items)
  | _ => []
  end.

Definition refs_of_dict (attrs : Dict.t pyval) : list loc :=
  concat (List.map (fun kv => refs kv.2) attrs).

(** The instances that the object at [l] owns, itself included, down to
    [depth] levels. *)
Fixpoint owned (depth : nat) (h : heap) (l : loc) : gset loc :=
  match depth with
  | O => ∅
  | S d =>
      match dict_of h l with
      | Some attrs => {[l]} ∪ ⋃ (List.map (owned d h) (refs_of_dict attrs))
      | None => ∅
      end
  end.

(** The keys of every [__dict__] are distinct. *)
Definition distinct_keys (h : heap) : Prop :=
  forall l attrs, dict_of h l = Some attrs -> NoDup (Dict.keys attrs).

(** Ownership is well founded: an object ranks above the instances it
    refers to. *)
Definition ranked (rank : loc -> nat) (h : heap) : Prop :=
  forall l attrs l', dict_of h l = Some attrs -> l' ∈ refs_of_dict attrs ->
    is_Some (dict_of h l') -> rank l' < rank l.

End Solved.

(** ** Bookkeeping for the proofs about substitution

    A cell is an attribute of an object in the store.  While
    [substitute_solution] runs, the store is the initial one with the cells
    processed so far holding their solved values. *)
Module Cells.
Import Store AeroSandboxObject Solved.

Section Cells.
Variable sol : solution.

Definition cell_value (C : gset (loc * string)) (l : loc)
    (kv : string * pyval) : string * pyval :=
  (kv.1, if decide ((l, kv.1) ∈ C) then solved_attr sol kv.2 else kv.2).

Definition solve_obj (C : gset (loc * string)) (l : loc) (o : pyobj) : pyobj :=
  match o with
  | Instance attrs => Instance (List.map (cell_value C l) attrs)
  | _ => o
  end.

Definition solved_cells (C : gset (loc * string)) (h : heap) : heap :=
  map_imap (fun l o => Some (solve_obj C l o)) h.
End Cells.

(** The references of the attributes called [names]. *)
Definition refs_at (attrs : Dict.t pyval) (names : list string) : list loc :=
  concat (List.map (fun k => from_option refs [] (Dict.get attrs k)) names).

(** The cells of the instances owned by the object at [l]. *)
Fixpoint cells_of (depth : nat) (h : heap) (l : loc) : gset (loc * string) :=
  match depth with
  | O => ∅
  | S d =>
      match dict_of h l with
      | Some attrs =>
          list_to_set (List.map (fun k => (l, k)) (Dict.keys attrs))
          ∪ ⋃ (List.map (cells_of d h) (refs_of_dict attrs))
      | None => ∅
      end
  end.

End Cells.

(** ** Concrete stores for the examples *)
Module Examples.

(** A newly allocated analysis object, before [__init__] has run. *)
Definition fresh_analysis : world := World {[0 := Instance []]} [].

(** An airplane-like object that owns a wing; both hold symbolic values. *)
Definition plane_store : heap :=
  {[ 0 := Instance [("alpha", VSym 0); ("n", VInt 3);
                    ("chords", VTuple [VSym 1; VFloat 2]);
                    ("wing", VRef 1); ("name", VStr "plane")];
     1 := Instance [("twist", VList [VSym 1; VRef 2]); ("symmetric", VBool true)];
     2 := Foreign ]}.

Definition plane_rank (l : loc) : nat :=
  match l with
  | 0 => 1
  | _ => 0
  end.

(** An analysis with one option for airplanes. *)
Definition avl : Options.analysis :=
  Options.Analysis "AVL"
    [("Airplane", ["profile_drag_coefficient"]); ("Wing", ["component"])]
    [("profile_drag_coefficient", VInt 0); ("component", VNone)].

(** An analysis that has options for wings only. *)
Definition neuralfoil : Options.analysis :=
  Options.Analysis "NeuralFoil" [("Wing", ["model_size"])] [("model_size", VInt 3)].

(** A wing known by its area, mean aerodynamic chord and span. *)
Definition wing_area (w : float * float * float) : res pyval := Ok (VFloat w.1.1).
Definition wing_mac (w : float * float * float) : res pyval := Ok (VFloat w.1.2).
Definition wing_span (w : float * float * float) : res pyval := Ok (VFloat w.2).

(** The problem that [MyAnalysis] sets up, and the store once its
    [__init__] has run, with [opti_provided] as given. *)
Definition my_problem : opti_state :=
  OptiState [VariableDecl 1 None None; VariableDecl 2 None None]
            [MyAnalysis.governing_equation].

Definition with_environment : heap :=
  <[1 := Environment empty_opti]> (store fresh_analysis).

Definition after_init (provided : bool) : heap :=
  {[ 0 := Instance [("_opti", VRef 1); ("_opti_provided", VBool provided);
                    ("a", VSym 0); ("b", VSym 1)];
     1 := Environment my_problem ]}.


End Examples.
(** ** Vocabulary for what substitution leaves alone *)
Module Shape.

(** [h'] has the objects of [h]: an instance is still an instance with the
    same attribute names, in the same order; everything else (an
    environment, any other object, a location that is not in use) is as it
    was. *)
Definition same_shape (h h' : heap) : Prop :=
  forall l,
    match h !! l with
    | Some (Instance attrs) =>
        exists attrs', h' !! l = Some (Instance attrs') /\ Dict.keys attrs' = Dict.keys attrs
    | o => h' !! l = o
    end.

Definition shape_kept {A} (h : heap) (o : outcome heap A) : Prop :=
  match o with
  | Returns _ h' | Raises _ h' => same_shape h h'
  | TooDeep => True
  end.

(** The call has returned or raised within the depth allowed to it. *)
Definition finished {A} (o : outcome heap A) : Prop :=
  match o with
  | TooDeep => False
  | _ => True
  end.

End Shape.

(** ** [Airplane.is_entirely_symmetric] and [Airplane.aerodynamic_center]
    (geometry/airplane.py)

    The classes [Wing], [WingXSec] and [Airfoil] are defined elsewhere in the
    package; these records hold what the two methods read of them, for
    geometry given by floats.  A method of a wing is known by what its call
    returns or raises. *)
Module Geometry.
Import PyFloat.

(** An array of the three coordinates (x, y, z). *)
Definition vec : Type := float * float * float.

Record Airfoil := {
  (* the user's functions of (alpha, Re, mach, deflection) *)
  CL_function : float -> float -> float -> float -> res float;
  Cm_function : float -> float -> float -> float -> res float
}.

Record WingXSec := {
  xyz_le : vec;
  twist : float;
  twist_axis : vec;
  control_surface_is_symmetric : bool;
  control_surface_deflection : float;
  airfoil : Airfoil
}.

Record Wing := {
  xsecs : list WingXSec;
  symmetric : bool;
  wing_is_entirely_symmetric : res bool;    (* wing.is_entirely_symmetric() *)
  area_projected : res float;               (* wing.area(type="projected") *)
  wing_aerodynamic_center : res vec         (* wing.aerodynamic_center() *)
}.

(** The body of [for xsec in wing.xsecs]: [Ok false] is [return False],
    [Ok true] lets the loop go on. *)
Definition xsec_check (wing : Wing) (xsec : WingXSec) : res bool :=
  if negb (control_surface_is_symmetric xsec
           || is_zero (control_surface_deflection xsec)) then Ok false
  else if negb (symmetric wing) then
    if negb (is_zero (xyz_le xsec).1.2) then Ok false
    else if negb (is_zero (twist xsec))
              && negb (is_zero (twist_axis xsec).1.1 && is_zero (twist_axis xsec).2)
    then Ok false
    else
      cl ← CL_function (airfoil xsec) 0 1e6 0 0;
      if negb (is_zero (cl : float)) then Ok false
      else
        cm ← Cm_function (airfoil xsec) 0 1e6 0 0;
        if negb (is_zero (cm : float)) then Ok false else Ok true
  else Ok true.

Fixpoint xsecs_loop (wing : Wing) (xsecs : list WingXSec) : res bool :=
  match xsecs with
  | [] => Ok true
  | xsec :: rest =>
      go_on ← xsec_check wing xsec;
      if (go_on : bool) then xsecs_loop wing rest else Ok false
  end.

(** [for wing in self.wings: ...] followed by [return True]. *)
Fixpoint wings_loop (wings : list Wing) : res bool :=
  match wings with
  | [] => Ok true
  | wing :: rest =>
      s ← wing_is_entirely_symmetric wing;
      if negb (s : bool) then Ok false
      else
        go_on ← xsecs_loop wing (xsecs wing);
        if (go_on : bool) then wings_loop rest else Ok false
  end.

Definition is_entirely_symmetric {Fuselage : Type}
    (self : @Airplane.airplane Wing Fuselage) : res bool :=
  wings_loop (Airplane.wings self).

(** A list comprehension [[f(x) for x in xs]]. *)
Fixpoint comprehension {A B : Type} (f : A -> res B) (xs : list A) : res (list B) :=
  match xs with
  | [] => Ok []
  | x :: rest => y ← f x; ys ← comprehension f rest; Ok (y :: ys)
  end.

(** [AC * area], [a + b] and [a / s] on arrays. *)
Definition scale (AC : vec) (area : float) : vec :=
  let '(x, y, z) := AC in ((x * area)%float, (y * area)%float, (z * area)%float).
Definition vec_add (a b : vec) : vec :=
  let '(ax, ay, az) := a in
  let '(bx, by', bz) := b in
  ((ax + bx)%float, (ay + by')%float, (az + bz)%float).
Definition vec_div (a : vec) (s : float) : vec :=
  let '(x, y, z) := a in ((x / s)%float, (y / s)%float, (z / s)%float).

(** [self.aerodynamic_center(chord_fraction)].  [sum] starts from the
    integer 0: without wings both sums are that integer, and the division
    is one of integers; with wings the numerator is an array, whose
    division is taken element by element and does not raise. *)
Definition aerodynamic_center {Fuselage : Type}
    (self : @Airplane.airplane Wing Fuselage) (chord_fraction : float) : res vec :=
  wing_areas ← comprehension area_projected (Airplane.wings self);
  ACs ← comprehension wing_aerodynamic_center (Airplane.wings self);
  let wing_AC_area_products := zip_with scale ACs wing_areas in
  match wing_AC_area_products with
  | [] => Raise ZeroDivisionError
  | _ =>
      Ok (vec_div (fold_left vec_add wing_AC_area_products (0%float, 0%float, 0%float))
                  (fold_left PrimFloat.add wing_areas 0%float))
  end.

End Geometry.

(** ** Vocabulary for the statements about symmetry *)
Module GeometrySpec.
Import PyFloat Geometry.

(** The control surface deflects both sides alike, or is not deflected. *)
Definition control_surface_neutral (xsec : WingXSec) : Prop :=
  control_surface_is_symmetric xsec = true \/
  is_zero (control_surface_deflection xsec) = true.

(** The cross-section lies in the plane of symmetry and is symmetric about
    it: its leading edge has y = 0, it is not twisted unless about the y
    axis, and its airfoil has neither lift nor moment at zero angle of
    attack (at Re = 1e6, Mach 0, no deflection). *)
Definition in_plane_of_symmetry (xsec : WingXSec) : Prop :=
  is_zero (xyz_le xsec).1.2 = true /\
  (is_zero (twist xsec) = true \/
   is_zero (twist_axis xsec).1.1 = true /\ is_zero (twist_axis xsec).2 = true) /\
  (exists cl, CL_function (airfoil xsec) 0 1e6 0 0 = Ok cl /\ is_zero cl = true) /\
  (exists cm, Cm_function (airfoil xsec) 0 1e6 0 0 = Ok cm /\ is_zero cm = true).

Definition wing_passes (wing : Wing) : Prop :=
  wing_is_entirely_symmetric wing = Ok true /\
  forall xsec, xsec ∈ xsecs wing ->
    control_surface_neutral xsec /\
    (symmetric wing = false -> in_plane_of_symmetry xsec).

End GeometrySpec.

(** ** More concrete inputs *)
Module MoreExamples.
Import Geometry.

(** An analysis that lists an option without a default. *)
Definition incomplete : Options.analysis :=
  Options.Analysis "XFoil"
    [("Airplane", ["n_crit"; "xtr"])]
    [("n_crit", VInt 9)].

(** A wing without cross-sections: its mean aerodynamic chord indexes an
    empty list. *)
Definition no_chord (w : float * float * float) : res pyval := Raise IndexError.

(** A solution that cannot evaluate anything it is given. *)
Definition unusable (item : pyval) : res pyval := Raise TypeError.

(** A solution that knows the first symbol only. *)
Definition partial (item : pyval) : res pyval :=
  match item with
  | VSym 0 => Ok (VFloat 1)
  | _ => Raise RuntimeError
  end.

Definition three_symbols : heap :=
  {[ 0 := Instance [("a", VSym 0); ("n", VInt 3); ("b", VSym 1); ("c", VSym 2)] ]}.

(** An object that refers to itself. *)
Definition self_owned : heap :=
  {[ 0 := Instance [("n", VInt 1); ("parent", VRef 0); ("x", VSym 0)] ]}.

(** An analysis with two options for airplanes. *)
Definition vlm : Options.analysis :=
  Options.Analysis "VortexLatticeMethod"
    [("Airplane", ["spanwise_resolution"; "chordwise_resolution"])]
    [("spanwise_resolution", VInt 10); ("chordwise_resolution", VInt 10)].

(** A solver that fails. *)
Definition failing_solve (st : opti_state) : res solution := Raise RuntimeError.

(** A body of [__init__] that fails after it has stored an attribute. *)
Definition init_failing (self : loc) (h : heap) : outcome heap unit :=
  Raises RuntimeError (Store.setattr self "CL" (VSym 0) h).

(** Airfoils: a symmetric one, and a cambered one whose functions must
    not be called with these arguments. *)
Definition flat_airfoil : Airfoil :=
  {| CL_function := fun alpha Re mach deflection => Ok (alpha * 0x1.c1f0cf5f1d7b8p-4)%float;
     Cm_function := fun alpha Re mach deflection => Ok 0%float |}.

Definition broken_airfoil : Airfoil :=
  {| CL_function := fun alpha Re mach deflection => Raise TypeError;
     Cm_function := fun alpha Re mach deflection => Raise TypeError |}.

Definition root (foil : Airfoil) (deflection : float) : WingXSec :=
  {| xyz_le := (0, 0, 0)%float; twist := 0; twist_axis := (0, 1, 0)%float;
     control_surface_is_symmetric := false;
     control_surface_deflection := deflection;
     airfoil := foil |}.

Definition tip (foil : Airfoil) : WingXSec :=
  {| xyz_le := (0x1p-2, 1, 0)%float; twist := 2; twist_axis := (0, 1, 0)%float;
     control_surface_is_symmetric := true;
     control_surface_deflection := 5;
     airfoil := foil |}.

(** A mirrored main wing and a fin in the plane of symmetry. *)
Definition main_wing : Wing :=
  {| xsecs := [root broken_airfoil 0; tip broken_airfoil];
     symmetric := true;
     wing_is_entirely_symmetric := Ok true;
     area_projected := Ok 2%float;
     wing_aerodynamic_center := Ok (0x1p-2, 0, 0)%float |}.

Definition fin : Wing :=
  {| xsecs := [root flat_airfoil 0];
     symmetric := false;
     wing_is_entirely_symmetric := Ok true;
     area_projected := Ok 0x1p-1%float;
     wing_aerodynamic_center := Ok (3, 0, 0x1p-1)%float |}.

Definition plane_of (wings : list Wing) : @Airplane.airplane Wing unit :=
  Airplane.Build Airplane.default_name Airplane.default_xyz_ref wings []
    VNone VNone VNone [].

End MoreExamples.

(** * Facts *)

Import PyFloat Motor MotorSpec Options OptionsSpec.
Import Store AeroSandboxObject Solved Cells.

(** *** Dictionaries *)
Section DictFacts.
Context {V : Type}.
Implicit Types (d : Dict.t V) (k : string) (v : V).

Lemma dict_get_None d k : Dict.get d k = None <-> k ∉ Dict.keys d.
Proof.
  induction d as [|[k' v'] d IH]; cbn.
  - split; [intros _; apply not_elem_of_nil | done].
  - rewrite not_elem_of_cons. destruct (decide (k' = k)) as [->|Hne].
    + split; [done | intros [? _]; done].
    + rewrite IH. split; [intros ?; split; [congruence | done] | intros [_ ?]; done].
Qed.

Lemma dict_get_is_Some d k : is_Some (Dict.get d k) <-> k ∈ Dict.keys d.
Proof.
  rewrite <- not_eq_None_Some, dict_get_None.
  split; [apply dec_stable | auto].
Qed.

Lemma dict_mem_keys d k : Dict.mem d k = true <-> k ∈ Dict.keys d.
Proof.
  rewrite <- dict_get_is_Some. unfold Dict.mem.
  destruct (Dict.get d k); split; intros H; try done; eauto.
Qed.

Lemma dict_get_set_eq d k v : Dict.get (Dict.set d k v) k = Some v.
Proof.
  induction d as [|[k' v'] d IH]; cbn.
  - by rewrite decide_True.
  - destruct (decide (k' = k)) as [->|Hne]; cbn.
    + by rewrite decide_True.
    + by rewrite decide_False.
Qed.

Lemma dict_get_set_ne d k k' v : k <> k' -> Dict.get (Dict.set d k v) k' = Dict.get d k'.
Proof.
  intros Hne. induction d as [|[k0 v0] d IH]; cbn.
  - by rewrite decide_False.
  - destruct (decide (k0 = k)) as [->|Hne0]; cbn.
    + by rewrite !decide_False.
    + destruct (decide (k0 = k')); done.
Qed.

(** Assigning to a key that is present keeps the keys and their order. *)
Lemma dict_keys_set_present d k v : k ∈ Dict.keys d -> Dict.keys (Dict.set d k v) = Dict.keys d.
Proof.
  induction d as [|[k' v'] d IH]; cbn.
  - intros H. by apply elem_of_nil in H.
  - intros H. destruct (decide (k' = k)) as [->|Hne]; cbn; [done|].
    f_equal. apply IH. apply elem_of_cons in H as [?|?]; [congruence | done].
Qed.

(** Assigning to a new key appends it. *)
Lemma dict_keys_set_fresh d k v : k ∉ Dict.keys d -> Dict.keys (Dict.set d k v) = (Dict.keys d ++ [k])%list.
Proof.
  induction d as [|[k' v'] d IH]; cbn; [done|].
  intros H. apply not_elem_of_cons in H as [Hne Hd].
  rewrite decide_False by congruence. cbn. f_equal. by apply IH.
Qed.

Lemma dict_elem_of_keys_set d k k' v :
  k' ∈ Dict.keys (Dict.set d k v) <-> k' = k \/ k' ∈ Dict.keys d.
Proof.
  destruct (decide (k ∈ Dict.keys d)) as [Hin|Hout].
  - rewrite dict_keys_set_present by done. split; [auto | intros [->|?]; done].
  - rewrite dict_keys_set_fresh by done. rewrite elem_of_app, list_elem_of_singleton. tauto.
Qed.

Lemma dict_NoDup_keys_set d k v : NoDup (Dict.keys d) -> NoDup (Dict.keys (Dict.set d k v)).
Proof.
  intros Hnd. destruct (decide (k ∈ Dict.keys d)) as [Hin|Hout].
  - by rewrite dict_keys_set_present.
  - rewrite dict_keys_set_fresh by done. apply NoDup_app. split_and!; [done | | apply NoDup_singleton].
    intros x Hx Hx'. apply list_elem_of_singleton in Hx'. by subst.
Qed.
End DictFacts.

Lemma truediv_cases a b :
  truediv a b = Ok (a / b)%float \/ truediv a b = Raise ZeroDivisionError.
Proof. unfold truediv. destruct (is_zero b); auto. Qed.

Ltac divide :=
  match goal with
  | |- context [truediv ?a ?b] =>
      destruct (truediv_cases a b) as [-> | ->]; cbn -[truediv]
  end.

(** Divisions by 30 and by pi never raise. *)
Lemma truediv_30 a : truediv a 30 = Ok (a / 30)%float.
Proof. reflexivity. Qed.

Lemma truediv_pi a : truediv a pi = Ok (a / pi)%float.
Proof. reflexivity. Qed.

Ltac motor_unfold :=
  unfold motor_electric_performance, loop_body, step_voltage, step_current_from_torque,
    step_current_from_voltage, step_rpm, step_torque, efficiency_of, all_known.

(** *** The loop of [motor_electric_performance] *)

(** A larger bound on the passes does not change a loop that has ended. *)
Lemma while_loop_S kv_rads resistance no_load_current n : forall s x,
  while_loop kv_rads resistance no_load_current n s = Some x ->
  while_loop kv_rads resistance no_load_current (S n) s = Some x.
Proof.
  induction n as [|n IH]; intros s x; cbn [while_loop].
  - destruct (all_known s); [done | discriminate].
  - destruct (all_known s); [done|].
    destruct (loop_body kv_rads resistance no_load_current s); [apply IH | done].
Qed.

Lemma while_loop_more kv_rads resistance no_load_current n m s x :
  while_loop kv_rads resistance no_load_current n s = Some x ->
  while_loop kv_rads resistance no_load_current (n + m) s = Some x.
Proof.
  intros H. induction m as [|m IH].
  - by rewrite Nat.add_0_r.
  - rewrite Nat.add_succ_r. by apply while_loop_S.
Qed.

(** The call, once the assertions have passed. *)
Lemma motor_well_posed_unfold n v i r t kv resistance no_load_current :
  well_posed v i r t = true ->
  motor_electric_performance n v i r t kv resistance no_load_current
  = match while_loop (kv * pi / 30) resistance no_load_current n
            (Locals v i r t (is_not_None v) (is_not_None i) (is_not_None r) (is_not_None t))
    with
    | None => None
    | Some (Raise e) => Some (Raise e)
    | Some (Ok s) => Some (efficiency_of s)
    end.
Proof.
  intros Hw. by destruct v, i, r, t; try discriminate Hw.
Qed.

Lemma efficiency_of_known v' i' r' t' :
  efficiency_of (Locals (Some v') (Some i') (Some r') (Some t') true true true true)
  = if is_zero (v' * i') then Raise ZeroDivisionError
    else Ok (Performance v' i' r' t' (r' * pi / 30 * t' / (v' * i'))).
Proof.
  unfold efficiency_of. cbn -[truediv]. rewrite truediv_30. cbn -[truediv].
  unfold truediv, is_zero. by destruct (PrimFloat.eqb (v' * i') 0).
Qed.

(** How the loop ends, by its divisors. *)
Lemma while_loop_outcome v i r t kv resistance no_load_current :
  well_posed v i r t = true ->
  if loop_divides_by_zero v i r t kv resistance then
    while_loop (kv * pi / 30) resistance no_load_current 2
      (Locals v i r t (is_not_None v) (is_not_None i) (is_not_None r) (is_not_None t))
    = Some (Raise ZeroDivisionError)
  else exists v' i' r' t',
    keeps v v' /\ keeps i i' /\ keeps r r' /\ keeps t t' /\
    while_loop (kv * pi / 30) resistance no_load_current 2
      (Locals v i r t (is_not_None v) (is_not_None i) (is_not_None r) (is_not_None t))
    = Some (Ok (Locals (Some v') (Some i') (Some r') (Some t') true true true true)).
Proof.
  intros Hw. unfold loop_divides_by_zero.
  assert (Hdiv_kv : forall a, truediv a (kv * pi / 30)
            = if is_zero (kv * pi / 30) then Raise ZeroDivisionError
              else Ok (a / (kv * pi / 30))%float) by reflexivity.
  assert (Hdiv_res : forall a, truediv a resistance
            = if is_zero resistance then Raise ZeroDivisionError
              else Ok (a / resistance)%float) by reflexivity.
  destruct (is_zero (kv * pi / 30)), (is_zero resistance);
    destruct v as [v|], i as [i|], r as [r|], t as [t|]; try discriminate Hw; clear Hw;
    cbn [is_not_None andb orb negb];
    unfold loop_body, step_voltage, step_current_from_torque,
      step_current_from_voltage, step_rpm, step_torque, all_known;
    cbn -[truediv];
    repeat first [ rewrite truediv_30 | rewrite truediv_pi | rewrite Hdiv_kv
                 | rewrite Hdiv_res | progress cbn -[truediv] ];
    first [ reflexivity
          | do 4 eexists; split_and!; [cbn; try reflexivity; exact I .. | reflexivity] ].
Qed.

(** C10, as amended.  For float arguments: when exactly two of voltage,
    current, rpm and torque are supplied, and not current with torque, the
    loop ends within two passes through its body, whatever the bound on the
    passes beyond two, and the outcome of the call is determined by its
    divisors.  If the loop meets a zero divisor ([kv * pi / 30] for every
    pair but voltage with torque, the resistance for voltage with rpm), the
    call raises [ZeroDivisionError].  Otherwise the four quantities are
    known when the loop ends, the supplied ones unchanged, and the call
    raises [ZeroDivisionError] when [voltage * current], the divisor of the
    efficiency, is zero, and returns the four quantities and the efficiency
    when it is not.  For any other combination of supplied arguments an
    assertion fails, whatever the bound on the passes, the loop not being
    entered. *)
Theorem motor_loop_terminates (v i r t : option float)
    (kv resistance no_load_current : float) :
  (well_posed v i r t = true ->
     exists out,
       (forall n, motor_electric_performance (2 + n) v i r t kv resistance no_load_current
                  = Some out) /\
       (out = Raise ZeroDivisionError \/ returns_all v i r t out) /\
       if loop_divides_by_zero v i r t kv resistance then out = Raise ZeroDivisionError
       else exists v' i' r' t',
         keeps v v' /\ keeps i i' /\ keeps r r' /\ keeps t t' /\
         while_loop (kv * pi / 30) resistance no_load_current 2
           (Locals v i r t (is_not_None v) (is_not_None i) (is_not_None r) (is_not_None t))
         = Some (Ok (Locals (Some v') (Some i') (Some r') (Some t') true true true true)) /\
         out = if is_zero (v' * i') then Raise ZeroDivisionError
               else Ok (Performance v' i' r' t' (r' * pi / 30 * t' / (v' * i'))))
  /\ (well_posed v i r t = false ->
     exists msg, forall n,
       motor_electric_performance n v i r t kv resistance no_load_current
       = Some (Raise (AssertionError msg))).
Proof.
  split; intros Hw.
  - pose proof (while_loop_outcome v i r t kv resistance no_load_current Hw) as Hloop.
    assert (Hcall : forall n out,
              motor_electric_performance 2 v i r t kv resistance no_load_current = Some out ->
              motor_electric_performance (2 + n) v i r t kv resistance no_load_current
              = Some out).
    { intros n out. rewrite !motor_well_posed_unfold by done.
      destruct (while_loop _ _ _ 2 _) as [x|] eqn:H2; [|done].
      by rewrite (while_loop_more _ _ _ 2 n _ x H2). }
    destruct (loop_divides_by_zero v i r t kv resistance).
    + exists (Raise ZeroDivisionError). split_and!; [|by left|done].
      intros n. apply Hcall. by rewrite motor_well_posed_unfold, Hloop.
    + destruct Hloop as (v' & i' & r' & t' & Hv & Hi & Hr & Ht & Hloop).
      eexists. split_and!.
      * intros n. apply Hcall. rewrite motor_well_posed_unfold, Hloop by done.
        by rewrite efficiency_of_known.
      * destruct (is_zero (v' * i')); [by left|]. right. by eexists.
      * by exists v', i', r', t'.
  - destruct v as [v|], i as [i|], r as [r|], t as [t|]; try discriminate Hw; clear Hw;
      eexists; intros n; reflexivity.
Qed.

Lemma motor_loop_terminates_witness :
  exists out,
    (forall n, motor_electric_performance (2 + n) None (Some 3%float) (Some 100%float) None
                 default_kv default_resistance default_no_load_current = Some out) /\
    (out = Raise ZeroDivisionError \/ returns_all None (Some 3%float) (Some 100%float) None out) /\
    if loop_divides_by_zero None (Some 3%float) (Some 100%float) None
         default_kv default_resistance
    then out = Raise ZeroDivisionError
    else exists v' i' r' t',
      keeps None v' /\ keeps (Some 3%float) i' /\ keeps (Some 100%float) r' /\ keeps None t' /\
      while_loop (default_kv * pi / 30) default_resistance default_no_load_current 2
        (Locals None (Some 3%float) (Some 100%float) None
           (is_not_None (@None float)) (is_not_None (Some 3%float))
           (is_not_None (Some 100%float)) (is_not_None (@None float)))
      = Some (Ok (Locals (Some v') (Some i') (Some r') (Some t') true true true true)) /\
      out = if is_zero (v' * i') then Raise ZeroDivisionError
            else Ok (Performance v' i' r' t' (r' * pi / 30 * t' / (v' * i'))).
Proof.
  apply (proj1 (motor_loop_terminates None (Some 3%float) (Some 100%float) None
                 default_kv default_resistance default_no_load_current)).
  reflexivity.
Defined.

(** C10 as stated fails: with [rpm=0.0] and [current=0.0] the voltage is
    zero, and the efficiency divides by [voltage * current]. *)
Lemma motor_zero_power_raises :
  well_posed None (Some 0%float) (Some 0%float) None = true /\
  ~ exists n p, motor_electric_performance n None (Some 0%float) (Some 0%float) None
                  default_kv default_resistance default_no_load_current = Some (Ok p).
Proof.
  split; [reflexivity|].
  intros (n & p & H). destruct n as [|[|n]]; vm_compute in H; discriminate H.
Qed.
(** *** Option validation *)

Lemma defaults_for_spec an keys acc :
  (forall k, k ∈ keys -> is_Some (Dict.get (default_analysis_specific_options an) k)) ->
  exists d, defaults_for an keys acc = Ok d /\
    (forall k, k ∈ Dict.keys d <-> k ∈ Dict.keys acc \/ k ∈ keys) /\
    (NoDup (Dict.keys acc) -> NoDup (Dict.keys d)) /\
    (forall k, k ∈ keys -> Dict.get d k = Dict.get (default_analysis_specific_options an) k) /\
    (forall k, k ∉ keys -> Dict.get d k = Dict.get acc k).
Proof.
  revert acc. induction keys as [|key keys IH]; intros acc Hdef; cbn.
  - exists acc. split_and!; [done | | done | | done].
    + intros k. rewrite elem_of_nil. tauto.
    + intros k Hk. by apply elem_of_nil in Hk.
  - destruct (Hdef key) as [v Hv]; [apply elem_of_cons; auto|].
    unfold Dict.subscript. rewrite Hv. cbn.
    destruct (IH (Dict.set acc key v)) as (d & Hd & Hkeys & Hnd & Hin & Hout).
    { intros k Hk. apply Hdef, elem_of_cons. auto. }
    exists d. split_and!; [done | | | |].
    + intros k. rewrite Hkeys, dict_elem_of_keys_set, elem_of_cons. tauto.
    + intros Hacc. by apply Hnd, dict_NoDup_keys_set.
    + intros k Hk. destruct (decide (k ∈ keys)) as [Hk'|Hk']; [by apply Hin|].
      apply elem_of_cons in Hk as [->|?]; [|done].
      rewrite Hout by done. by rewrite dict_get_set_eq.
    + intros k Hk. apply not_elem_of_cons in Hk as [Hne Hk].
      rewrite Hout by done. by apply dict_get_set_ne.
Qed.

Lemma override_valid cls an user opts :
  (forall k, k ∈ Dict.keys user -> k ∈ Dict.keys opts) ->
  exists d, override cls an user opts = Ok d /\
    Dict.keys d = Dict.keys opts /\
    (NoDup (Dict.keys user) ->
     forall k, Dict.get d k = match Dict.get user k with
                              | Some v => Some v
                              | None => Dict.get opts k
                              end).
Proof.
  revert opts. induction user as [|[key value] user IH]; intros opts Hvalid; cbn.
  - by exists opts.
  - assert (Hkey : key ∈ Dict.keys opts) by (apply Hvalid; cbn; apply elem_of_cons; auto).
    apply dict_mem_keys in Hkey as Hmem. rewrite Hmem.
    destruct (IH (Dict.set opts key value)) as (d & Hd & Hkeys & Hget).
    { intros k Hk. rewrite dict_keys_set_present by done.
      apply Hvalid. cbn. apply elem_of_cons. auto. }
    exists d. split_and!; [done | by rewrite Hkeys, dict_keys_set_present |].
    intros Hnd k. cbn in Hnd. apply NoDup_cons in Hnd as [Hfresh Hnd].
    rewrite (Hget Hnd). destruct (decide (key = k)) as [->|Hne].
    + apply dict_get_None in Hfresh. rewrite Hfresh. apply dict_get_set_eq.
    + destruct (Dict.get user k); [done|]. by apply dict_get_set_ne.
Qed.

Lemma override_invalid cls an user opts :
  (exists k, k ∈ Dict.keys user /\ k ∉ Dict.keys opts) ->
  exists k, k ∈ Dict.keys user /\ (k ∉ Dict.keys opts) /\
    override cls an user opts
    = Raise (ValueError (OptionError k cls (analysis_name an) (Dict.keys opts))).
Proof.
  revert opts. induction user as [|[key value] user IH]; intros opts (k & Hk & Hbad); cbn.
  - by apply elem_of_nil in Hk.
  - destruct (Dict.mem opts key) eqn:Hmem.
    + apply dict_mem_keys in Hmem.
      destruct (IH (Dict.set opts key value)) as (k' & Hk' & Hbad' & Hr).
      { exists k. rewrite dict_keys_set_present by done. split; [|done].
        cbn in Hk. apply elem_of_cons in Hk as [->|?]; done. }
      rewrite dict_keys_set_present in Hbad' by done.
      rewrite dict_keys_set_present in Hr by done.
      exists k'. split_and!; [cbn; apply elem_of_cons; auto | done | done].
    + exists key. split_and!; [cbn; apply elem_of_cons; auto | | done].
      intros Hin. apply dict_mem_keys in Hin. congruence.
Qed.

(** The truthiness test on the user's dictionary changes nothing: the loop
    over an empty dictionary does not run. *)
Lemma validate_unfold cls an user :
  validate_analysis_specific_options cls an user =
  (keys ← Dict.subscript (option_keys an) cls;
   opts ← defaults_for an keys [];
   override cls an user opts).
Proof.
  unfold validate_analysis_specific_options.
  destruct (Dict.subscript (option_keys an) cls); [cbn|done].
  destruct (defaults_for an a []); [cbn|done]. by destruct user.
Qed.

(** C8, as amended.  When the analysis declares option keys for the class of
    the object, each with a default, and the user's dictionary has distinct
    keys: if every key that the user supplies is one of the declared keys,
    [validate_analysis_specific_options] returns a dictionary whose keys are
    exactly [analysis.option_keys[cls]], in which a key that the user
    supplied maps to the user's value and every other key to its default in
    [analysis.default_analysis_specific_options]; with an empty user
    dictionary, which is what [get_analysis_specific_options] passes for an
    analysis without an entry, the result is the defaults.  If some supplied
    key is not declared, the method raises the [ValueError] for such a key
    and returns no dictionary.  When [analysis.option_keys] has no entry for
    the class, it raises [KeyError], whatever the user's dictionary is. *)
Theorem validate_returns_defaults_and_overrides cls an user keys :
  (declares an cls keys -> NoDup (Dict.keys user) ->
     ((forall k, k ∈ Dict.keys user -> k ∈ keys) ->
        exists d,
          validate_analysis_specific_options cls an user = Ok d /\
          (forall k, k ∈ Dict.keys d <-> k ∈ keys) /\
          NoDup (Dict.keys d) /\
          (forall k v, Dict.get user k = Some v -> Dict.get d k = Some v) /\
          (forall k, k ∈ keys -> Dict.get user k = None ->
             Dict.get d k = Dict.get (default_analysis_specific_options an) k) /\
          (user = [] ->
             forall opts, lookup_analysis opts an = None ->
               get_analysis_specific_options cls opts an = Ok d)) /\
     (~ (forall k, k ∈ Dict.keys user -> k ∈ keys) ->
        exists k valid, k ∈ Dict.keys user /\ (k ∉ keys) /\
          (forall k', k' ∈ valid <-> k' ∈ keys) /\
          validate_analysis_specific_options cls an user
          = Raise (ValueError (OptionError k cls (analysis_name an) valid)))) /\
  (Dict.get (option_keys an) cls = None ->
     validate_analysis_specific_options cls an user = Raise (KeyError cls)).
Proof.
  split.
  - intros [Hkeys Hdef] Hnd. split.
    + intros Hvalid.
      destruct (defaults_for_spec an keys [] Hdef) as (d0 & Hd0 & Hk0 & Hnd0 & Hin0 & _).
      destruct (override_valid cls an user d0) as (d & Hd & Hkd & Hget).
      { intros k Hk. apply Hk0. right. by apply Hvalid. }
      assert (Hrun : validate_analysis_specific_options cls an user = Ok d).
      { rewrite validate_unfold. unfold Dict.subscript. rewrite Hkeys. cbn.
        rewrite Hd0. cbn. done. }
      exists d. split_and!; [done | | | | |].
      * intros k. rewrite Hkd, Hk0, elem_of_nil. tauto.
      * rewrite Hkd. apply Hnd0. constructor.
      * intros k v Hk. by rewrite (Hget Hnd), Hk.
      * intros k Hk Hnone. rewrite (Hget Hnd), Hnone. by apply Hin0.
      * intros -> opts Hopts. unfold get_analysis_specific_options. by rewrite Hopts.
    + intros Hbad.
      destruct (defaults_for_spec an keys [] Hdef) as (d0 & Hd0 & Hk0 & _).
      assert (Hsame : forall k, k ∈ Dict.keys d0 <-> k ∈ keys).
      { intros k. rewrite Hk0, elem_of_nil. tauto. }
      rewrite validate_unfold. unfold Dict.subscript. rewrite Hkeys. cbn. rewrite Hd0. cbn.
      assert (Hex : exists k, k ∈ Dict.keys user /\ k ∉ Dict.keys d0).
      { assert (Hnot : ~ Forall (fun k => k ∈ keys) (Dict.keys user)).
        { intros Hall. apply Hbad. intros k Hk. by apply (proj1 (Forall_forall _ _) Hall). }
        apply not_Forall_Exists in Hnot; [|solve_decision].
        apply Exists_exists in Hnot as (k & Hk & Hnotin). exists k. by rewrite Hsame. }
      destruct (override_invalid cls an user d0 Hex) as (k' & Hk' & Hbad' & Hr).
      exists k', (Dict.keys d0). split_and!; [done | by rewrite <- Hsame | done | done].
  - intros Hnone. unfold validate_analysis_specific_options, Dict.subscript. by rewrite Hnone.
Qed.

Lemma validate_result cls an user keys :
  declares an cls keys ->
  (Forall (fun k => k ∈ keys) (Dict.keys user) ->
     exists d, validate_analysis_specific_options cls an user = Ok d) /\
  (~ Forall (fun k => k ∈ keys) (Dict.keys user) ->
     exists k valid, k ∈ Dict.keys user /\ (k ∉ keys) /\
       (forall k', k' ∈ valid <-> k' ∈ keys) /\
       validate_analysis_specific_options cls an user
       = Raise (ValueError (OptionError k cls (analysis_name an) valid))).
Proof.
  intros [Hkeys Hdef].
  destruct (defaults_for_spec an keys [] Hdef) as (d0 & Hd0 & Hk0 & _).
  assert (Hsame : forall k, k ∈ Dict.keys d0 <-> k ∈ keys).
  { intros k. rewrite Hk0, elem_of_nil. tauto. }
  rewrite validate_unfold. unfold Dict.subscript. rewrite Hkeys. cbn. rewrite Hd0. cbn.
  split.
  - intros Hall. destruct (override_valid cls an user d0) as (d & Hd & _); [|eauto].
    intros k Hk. apply Hsame. by apply (proj1 (Forall_forall _ _) Hall).
  - intros Hbad. apply not_Forall_Exists in Hbad; [|solve_decision].
    apply Exists_exists in Hbad as (k & Hk & Hnot).
    destruct (override_invalid cls an user d0) as (k' & Hk' & Hbad' & Hr).
    { exists k. split; [done|]. by rewrite Hsame. }
    exists k', (Dict.keys d0). split_and!; [done | by rewrite <- Hsame | done | done].
Qed.

Lemma parse_result cls (opts : options_dict) :
  (forall an user, (an, user) ∈ opts -> exists keys, declares an cls keys) ->
  ((forall an user k, (an, user) ∈ opts -> k ∈ Dict.keys user -> valid_option an cls k) ->
     exists parsed, parse_analysis_specific_options cls opts = Ok parsed) /\
  ((exists an user k, (an, user) ∈ opts /\ k ∈ Dict.keys user /\ ~ valid_option an cls k) ->
     exists an user k keys valid,
       (an, user) ∈ opts /\ k ∈ Dict.keys user /\
       Dict.get (option_keys an) cls = Some keys /\ (k ∉ keys) /\
       (forall k', k' ∈ valid <-> k' ∈ keys) /\
       parse_analysis_specific_options cls opts
       = Raise (ValueError (OptionError k cls (analysis_name an) valid))).
Proof.
  induction opts as [|[an user] opts IH]; intros Hdecl.
  - split; [by exists [] |]. intros (? & ? & ? & H & _). by apply elem_of_nil in H.
  - destruct (Hdecl an user) as [keys Hd]; [apply elem_of_cons; auto|].
    destruct IH as [IHok IHbad].
    { intros an' user' H. apply (Hdecl an' user'), elem_of_cons. auto. }
    destruct (validate_result cls an user keys Hd) as [Hvok Hvbad].
    cbn [parse_analysis_specific_options].
    split.
    + intros Hvalid. destruct Hvok as [d Hd'].
      { apply Forall_forall. intros k Hk.
        destruct (Hvalid an user k) as (keys' & Hk1 & Hk2); [apply elem_of_cons; auto | done |].
        destruct Hd as [Hd _]. congruence. }
      destruct IHok as [rest Hrest].
      { intros an' user' k H. apply Hvalid, elem_of_cons. auto. }
      rewrite Hd', Hrest. cbn. eauto.
    + intros (an' & user' & k & Hin & Hk & Hbad).
      destruct (decide (Forall (fun k => k ∈ keys) (Dict.keys user))) as [Hall|Hnot].
      * destruct (Hvok Hall) as [d Hd']. rewrite Hd'. cbn.
        destruct IHbad as (an2 & user2 & k2 & keys2 & valid & H1 & H2 & H3 & H4 & H5 & H6).
        { exists an', user', k. split_and!; [|done|done].
          apply elem_of_cons in Hin as [Heq|?]; [|done].
          injection Heq as -> ->. exfalso. apply Hbad.
          exists keys. split; [apply Hd|]. by apply (proj1 (Forall_forall _ _) Hall). }
        exists an2, user2, k2, keys2, valid.
        split_and!; [apply elem_of_cons; auto | done | done | done | done |].
        by rewrite H6.
      * destruct (Hvbad Hnot) as (k2 & valid & H1 & H2 & H3 & H4).
        exists an, user, k2, keys, valid.
        split_and!; [apply elem_of_cons; auto | done | apply Hd | done | done |].
        by rewrite H4.
Qed.

Lemma parse_first_failure cls pre an user post e :
  (forall an' user', (an', user') ∈ pre ->
     exists d, validate_analysis_specific_options cls an' user' = Ok d) ->
  validate_analysis_specific_options cls an user = Raise e ->
  parse_analysis_specific_options cls (pre ++ (an, user) :: post) = Raise e.
Proof.
  intros Hpre Hfail. induction pre as [|[an' user'] pre IH]; cbn.
  - by rewrite Hfail.
  - destruct (Hpre an' user') as [d Hd]; [apply elem_of_cons; auto|].
    rewrite Hd. cbn. rewrite IH; [done|].
    intros an2 user2 Hin. apply (Hpre an2 user2), elem_of_cons. auto.
Qed.

(** C5, as amended.  An [Airplane] is constructed with analysis-specific
    options, the block of the reference values not raising.  When every
    analysis of the dictionary declares option keys for airplanes, each with
    a default: if some supplied key is not a valid option under its
    analysis, [Airplane.__init__] raises the [ValueError] of
    [validate_analysis_specific_options], whose message names a supplied key
    that is not valid and lists the valid keys of that analysis, so that no
    airplane is returned; if every supplied key is valid, the constructor
    returns an airplane.  When the first entry that does not validate is for
    an analysis without option keys for airplanes, the constructor raises
    [KeyError] for the class instead, which lists no option. *)
Theorem airplane_init_checks_options {Wing Fuselage : Type}
    (area mean_aerodynamic_chord span : Wing -> res pyval)
    name xyz_ref wings (fuselages : option (list Fuselage)) s_ref c_ref b_ref opts refs :
  Airplane.assign_reference_values area mean_aerodynamic_chord span
    (default [] wings) s_ref c_ref b_ref = Ok refs ->
  ((forall an user, (an, user) ∈ opts -> exists keys, declares an "Airplane" keys) ->
   ((exists an user k, (an, user) ∈ opts /\ k ∈ Dict.keys user /\ ~ valid_option an "Airplane" k) ->
      exists an user k keys valid,
        (an, user) ∈ opts /\ k ∈ Dict.keys user /\
        Dict.get (option_keys an) "Airplane" = Some keys /\ (k ∉ keys) /\
        (forall k', k' ∈ valid <-> k' ∈ keys) /\
        Airplane.init area mean_aerodynamic_chord span
          name xyz_ref wings fuselages s_ref c_ref b_ref opts
        = Raise (ValueError (OptionError k "Airplane" (analysis_name an) valid))) /\
   ((forall an user k, (an, user) ∈ opts -> k ∈ Dict.keys user -> valid_option an "Airplane" k) ->
      exists plane, Airplane.init area mean_aerodynamic_chord span
          name xyz_ref wings fuselages s_ref c_ref b_ref opts = Ok plane)) /\
  (forall pre an user post,
     opts = (pre ++ (an, user) :: post)%list ->
     (forall an' user', (an', user') ∈ pre ->
        exists d, validate_analysis_specific_options "Airplane" an' user' = Ok d) ->
     Dict.get (option_keys an) "Airplane" = None ->
     Airplane.init area mean_aerodynamic_chord span
       name xyz_ref wings fuselages s_ref c_ref b_ref opts
     = Raise (KeyError "Airplane")).
Proof.
  intros Hrefs.
  assert (Hinit : Airplane.init area mean_aerodynamic_chord span
         name xyz_ref wings fuselages s_ref c_ref b_ref opts =
       (parsed ← parse_analysis_specific_options "Airplane" opts;
        Ok (Airplane.Build name xyz_ref (default [] wings) (default [] fuselages)
              refs.1.1 refs.1.2 refs.2 parsed))).
  { unfold Airplane.init. destruct wings, fuselages; cbv [default from_option id] in Hrefs;
      rewrite Hrefs; by destruct refs as [[? ?] ?]. }
  rewrite Hinit. split.
  - intros Hdecl. destruct (parse_result "Airplane" opts Hdecl) as [Hok Hbad]. split.
    + intros H. destruct (Hbad H) as (an & user & k & keys & valid & H1 & H2 & H3 & H4 & H5 & H6).
      exists an, user, k, keys, valid. rewrite H6. done.
    + intros H. destruct (Hok H) as [parsed Hp]. rewrite Hp. cbn. eauto.
  - intros pre an user post -> Hpre Hnone.
    rewrite (parse_first_failure "Airplane" pre an user post (KeyError "Airplane")); [done | done |].
    unfold validate_analysis_specific_options, Dict.subscript. by rewrite Hnone.
Qed.

(** C9. With an omitted or empty wing list and no reference values, the block
    that assigns the reference values raises nothing: the constructor goes on
    to the options and, with the default (empty) options, returns an airplane
    whose [s_ref], [c_ref] and [b_ref] are [None].  With a first wing, each
    reference value that was not given is what the first wing's [area],
    [mean_aerodynamic_chord] and [span] return, whatever the other wings
    are; a reference value that was given is kept. *)
Theorem airplane_init_reference_values {Wing Fuselage : Type}
    (area mean_aerodynamic_chord span : Wing -> res pyval)
    name xyz_ref (fuselages : option (list Fuselage)) :
  (forall wings opts, wings = None \/ wings = Some [] ->
     Airplane.init area mean_aerodynamic_chord span
       name xyz_ref wings fuselages VNone VNone VNone opts
     = (parsed ← parse_analysis_specific_options "Airplane" opts;
        Ok (Airplane.Build name xyz_ref [] (default [] fuselages) VNone VNone VNone parsed))) /\
  (forall wings, wings = None \/ wings = Some [] ->
     Airplane.init area mean_aerodynamic_chord span
       name xyz_ref wings fuselages VNone VNone VNone Airplane.default_analysis_specific_options
     = Ok (Airplane.Build name xyz_ref [] (default [] fuselages) VNone VNone VNone [])) /\
  (forall main_wing others s_ref c_ref b_ref a c b,
     area main_wing = Ok a ->
     mean_aerodynamic_chord main_wing = Ok c ->
     span main_wing = Ok b ->
     Airplane.init area mean_aerodynamic_chord span
       name xyz_ref (Some (main_wing :: others)) fuselages s_ref c_ref b_ref
       Airplane.default_analysis_specific_options
     = Ok (Airplane.Build name xyz_ref (main_wing :: others) (default [] fuselages)
             (if is_None s_ref then a else s_ref)
             (if is_None c_ref then c else c_ref)
             (if is_None b_ref then b else b_ref) [])).
Proof.
  split_and!.
  - intros wings opts [-> | ->]; unfold Airplane.init; cbn;
      destruct (parse_analysis_specific_options "Airplane" opts); by destruct fuselages.
  - intros wings [-> | ->]; by destruct fuselages.
  - intros main_wing others s_ref c_ref b_ref a c b Ha Hc Hb.
    unfold Airplane.init, Airplane.assign_reference_values, Airplane.populate.
    rewrite Ha, Hc, Hb.
    by destruct (is_None s_ref), (is_None c_ref), (is_None b_ref), fuselages.
Qed.

(** *** Values *)

(** Induction on values that reaches into lists and tuples. *)
Lemma pyval_nested_ind (P : pyval -> Prop) :
  P VNone -> (forall b, P (VBool b)) -> (forall n, P (VInt n)) ->
  (forall x, P (VFloat x)) -> (forall s, P (VStr s)) -> (forall e, P (VSym e)) ->
  (forall items, Forall P items -> P (VList items)) ->
  (forall items, Forall P items -> P (VTuple items)) ->
  (forall l, P (VRef l)) ->
  forall v, P v.
Proof.
  intros HNone HBool HInt HFloat HStr HSym HList HTuple HRef.
  fix IH 1. intros [|b|n|x|s|e|items|items|l].
  - exact HNone.
  - exact (HBool b).
  - exact (HInt n).
  - exact (HFloat x).
  - exact (HStr s).
  - exact (HSym e).
  - apply HList. induction items as [|i items IHitems]; constructor; [apply IH | exact IHitems].
  - apply HTuple. induction items as [|i items IHitems]; constructor; [apply IH | exact IHitems].
  - exact (HRef l).
Qed.

Section SolvedFacts.
Variable sol : solution.
Hypothesis Hsol : evaluates sol.

Lemma solved_leaf v :
  (forall items, v <> VList items) -> (forall items, v <> VTuple items) ->
  solved sol v = match sol v with Ok v' => v' | Raise _ => v end.
Proof. intros H1 H2. destruct v; cbn; try done; [by destruct (H1 items) | by destruct (H2 items)]. Qed.

Lemma solved_list items :
  solved sol (VList items) = VList (List.map (solved sol) items).
Proof. cbn. by rewrite (Hsol (VList items)). Qed.

Lemma solved_tuple items :
  solved sol (VTuple items) = VList (List.map (solved sol) items).
Proof. cbn. by rewrite (Hsol (VTuple items)). Qed.

Lemma solved_ref l : solved sol (VRef l) = VRef l.
Proof. cbn. by rewrite (Hsol (VRef l)). Qed.

(** Substitution keeps the references of a value. *)
Lemma refs_solved v : refs (solved sol v) = refs v.
Proof.
  induction v as [|b|n|x|s|e|items IH|items IH|l] using pyval_nested_ind.
  - cbn. by rewrite (Hsol VNone).
  - cbn. destruct (Hsol (VBool b)) as [[x ->]| ->]; done.
  - cbn. destruct (Hsol (VInt n)) as [[x ->]| ->]; done.
  - cbn. destruct (Hsol (VFloat x)) as [->| ->]; done.
  - cbn. by rewrite (Hsol (VStr s)).
  - cbn. destruct (Hsol (VSym e)) as [x ->]; done.
  - rewrite solved_list. cbn. f_equal.
    induction IH as [|i items Hi _ IH]; cbn; [done|]. by rewrite Hi, IH.
  - rewrite solved_tuple. cbn. f_equal.
    induction IH as [|i items Hi _ IH]; cbn; [done|]. by rewrite Hi, IH.
  - by rewrite solved_ref.
Qed.

(** Substituting twice is substituting once. *)
Lemma solved_idem v : solved sol (solved sol v) = solved sol v.
Proof.
  induction v as [|b|n|x|s|e|items IH|items IH|l] using pyval_nested_ind.
  - cbn. rewrite (Hsol VNone). cbn. by rewrite (Hsol VNone).
  - cbn. destruct (Hsol (VBool b)) as [[x Hx]|Hx]; rewrite Hx; cbn.
    + by destruct (Hsol (VFloat x)) as [->| ->].
    + by rewrite Hx.
  - cbn. destruct (Hsol (VInt n)) as [[x Hx]|Hx]; rewrite Hx; cbn.
    + by destruct (Hsol (VFloat x)) as [->| ->].
    + by rewrite Hx.
  - cbn. destruct (Hsol (VFloat x)) as [Hx|Hx]; rewrite Hx; cbn; by rewrite Hx.
  - cbn. rewrite (Hsol (VStr s)). cbn. by rewrite (Hsol (VStr s)).
  - cbn. destruct (Hsol (VSym e)) as [x ->]. cbn.
    by destruct (Hsol (VFloat x)) as [->| ->].
  - rewrite solved_list, solved_list. f_equal.
    induction IH as [|i items Hi _ IH]; cbn; [done|]. by rewrite Hi, IH.
  - rewrite solved_tuple, solved_list. f_equal.
    induction IH as [|i items Hi _ IH]; cbn; [done|]. by rewrite Hi, IH.
  - by rewrite !solved_ref.
Qed.

(** Nothing symbolic is left in a substituted value. *)
Lemma sym_free_solved v : sym_free (solved sol v) = true.
Proof.
  induction v as [|b|n|x|s|e|items IH|items IH|l] using pyval_nested_ind.
  - cbn. by rewrite (Hsol VNone).
  - cbn. destruct (Hsol (VBool b)) as [[x ->]| ->]; done.
  - cbn. destruct (Hsol (VInt n)) as [[x ->]| ->]; done.
  - cbn. destruct (Hsol (VFloat x)) as [->| ->]; done.
  - cbn. by rewrite (Hsol (VStr s)).
  - cbn. destruct (Hsol (VSym e)) as [x ->]; done.
  - rewrite solved_list. cbn.
    induction IH as [|i items Hi _ IH]; cbn; [done|]. by rewrite Hi, IH.
  - rewrite solved_tuple. cbn.
    induction IH as [|i items Hi _ IH]; cbn; [done|]. by rewrite Hi, IH.
  - by rewrite solved_ref.
Qed.

Lemma is_number_refs v : is_number v = true -> refs v = [].
Proof. by destruct v. Qed.

Lemma solved_attr_idem v : solved_attr sol (solved_attr sol v) = solved_attr sol v.
Proof.
  unfold solved_attr. destruct (is_number v) eqn:Hv; [by rewrite Hv|].
  destruct (is_number (solved sol v)); [done | apply solved_idem].
Qed.

Lemma refs_solved_attr v : refs (solved_attr sol v) = refs v.
Proof. unfold solved_attr. destruct (is_number v); [done | apply refs_solved]. Qed.

Lemma sym_free_solved_attr v : sym_free (solved_attr sol v) = true.
Proof.
  unfold solved_attr. destruct (is_number v) eqn:Hv; [by destruct v | apply sym_free_solved].
Qed.
End SolvedFacts.

(** *** Stores with solved cells *)
Section CellFacts.
Variable sol : solution.

Implicit Types (C : gset (loc * string)) (h : heap).

Lemma lookup_solved_cells C h l :
  solved_cells sol C h !! l = solve_obj sol C l <$> h !! l.
Proof. unfold solved_cells. rewrite map_lookup_imap. by destruct (h !! l). Qed.

Lemma dict_of_solved_cells C h l :
  dict_of (solved_cells sol C h) l = List.map (cell_value sol C l) <$> dict_of h l.
Proof.
  unfold dict_of. rewrite lookup_solved_cells.
  by destruct (h !! l) as [[]|].
Qed.

Lemma dict_get_map_cells C l attrs k :
  Dict.get (List.map (cell_value sol C l) attrs) k
  = (fun v => if decide ((l, k) ∈ C) then solved_attr sol v else v) <$> Dict.get attrs k.
Proof.
  induction attrs as [|[k' v'] attrs IH]; cbn; [done|].
  destruct (decide (k' = k)) as [->|]; [done | apply IH].
Qed.

Lemma attr_solved_cells C h l k :
  attr (solved_cells sol C h) l k
  = (fun v => if decide ((l, k) ∈ C) then solved_attr sol v else v) <$> attr h l k.
Proof.
  unfold attr. rewrite dict_of_solved_cells.
  destruct (dict_of h l) as [attrs|]; cbn; [apply dict_get_map_cells | done].
Qed.

Lemma keys_map_cells C l attrs :
  Dict.keys (List.map (cell_value sol C l) attrs) = Dict.keys attrs.
Proof. unfold Dict.keys. induction attrs as [|[] ? IH]; cbn; [done | by rewrite IH]. Qed.

(** Two sets of cells give the same store when they agree on the cells
    whose solved value differs from the stored one. *)
Lemma solved_cells_ext C C' h :
  (forall l attrs k v, dict_of h l = Some attrs -> (k, v) ∈ attrs ->
     cell_value sol C l (k, v) = cell_value sol C' l (k, v)) ->
  solved_cells sol C h = solved_cells sol C' h.
Proof.
  intros Hext. apply map_eq. intros l. rewrite !lookup_solved_cells.
  destruct (h !! l) as [[attrs| |]|] eqn:Hl; cbn; try done.
  do 2 f_equal. apply map_ext_in. intros [k v] Hin. apply (Hext l attrs).
  - unfold dict_of. by rewrite Hl.
  - by apply list_elem_of_In.
Qed.

Lemma solved_cells_empty h : solved_cells sol ∅ h = h.
Proof.
  apply map_eq. intros l. rewrite lookup_solved_cells.
  destruct (h !! l) as [[attrs| |]|]; cbn; try done.
  do 2 f_equal. rewrite <- (map_id attrs) at 2. apply map_ext. by intros [k v].
Qed.

Lemma dict_set_map_cells C l attrs k v0 :
  NoDup (Dict.keys attrs) -> Dict.get attrs k = Some v0 ->
  Dict.set (List.map (cell_value sol C l) attrs) k (solved_attr sol v0)
  = List.map (cell_value sol (C ∪ {[(l, k)]}) l) attrs.
Proof.
  induction attrs as [|[k' v'] attrs IH]; cbn; [done|].
  intros Hnd Hget. apply NoDup_cons in Hnd as [Hfresh Hnd].
  destruct (decide (k' = k)) as [->|Hne].
  - injection Hget as ->. unfold cell_value at 2. cbn.
    rewrite decide_True by set_solver. f_equal.
    apply map_ext_in. intros [k2 v2] Hin. unfold cell_value. cbn. f_equal.
    assert (k2 <> k).
    { intros ->. apply Hfresh. apply list_elem_of_In in Hin.
      apply list_elem_of_fmap. by exists (k, v2). }
    destruct (decide ((l, k2) ∈ C)); [by rewrite decide_True by set_solver|].
    by rewrite decide_False by set_solver.
  - rewrite IH by done. f_equal. unfold cell_value. cbn. f_equal.
    destruct (decide ((l, k') ∈ C)); [by rewrite decide_True by set_solver|].
    by rewrite decide_False by set_solver.
Qed.

(** Storing the solved value of an attribute solves one more cell. *)
Lemma setattr_solved_cells C h self attrs k v0 :
  dict_of h self = Some attrs -> NoDup (Dict.keys attrs) ->
  Dict.get attrs k = Some v0 ->
  setattr self k (solved_attr sol v0) (solved_cells sol C h)
  = solved_cells sol (C ∪ {[(self, k)]}) h.
Proof.
  intros Hself Hnd Hget. unfold setattr. rewrite lookup_solved_cells.
  unfold dict_of in Hself. destruct (h !! self) as [[attrs'| |]|] eqn:Hl; try done.
  injection Hself as ->. cbn.
  apply map_eq. intros l. destruct (decide (l = self)) as [->|Hne].
  - rewrite lookup_insert_eq, lookup_solved_cells, Hl. cbn.
    by rewrite dict_set_map_cells.
  - rewrite lookup_insert_ne by done. rewrite !lookup_solved_cells.
    destruct (h !! l) as [[attrs2| |]|]; cbn; try done.
    do 2 f_equal. apply map_ext. intros [k2 v2]. unfold cell_value. cbn. f_equal.
    destruct (decide ((l, k2) ∈ C)); [by rewrite decide_True by set_solver|].
    rewrite decide_False; [done|]. set_solver.
Qed.

(** A cell whose value is already solved can be added for free. *)
Lemma solved_cells_add_stable C h self attrs k v0 :
  dict_of h self = Some attrs -> NoDup (Dict.keys attrs) ->
  Dict.get attrs k = Some v0 ->
  ((self, k) ∈ C \/ solved_attr sol v0 = v0) ->
  solved_cells sol (C ∪ {[(self, k)]}) h = solved_cells sol C h.
Proof.
  intros Hself Hnd Hget Hstable. apply solved_cells_ext.
  intros l attrs' k' v' Hl Hin. unfold cell_value. cbn. f_equal.
  destruct (decide ((l, k') ∈ C)) as [?|Hout]; [by rewrite decide_True by set_solver|].
  destruct (decide ((l, k') = (self, k))) as [Heq|Hne].
  - injection Heq as -> ->. rewrite decide_True by set_solver.
    destruct Hstable as [?|Hst]; [done|].
    assert (attrs' = attrs) as -> by congruence.
    assert (Dict.get attrs k = Some v') as Hget'.
    { clear -Hnd Hin. induction attrs as [|[k1 v1] attrs IH]; [by apply elem_of_nil in Hin|].
      cbn in *. apply NoDup_cons in Hnd as [Hfresh Hnd].
      apply elem_of_cons in Hin as [Heq|Hin].
      - injection Heq as <- <-. by rewrite decide_True.
      - rewrite decide_False; [by apply IH|]. intros ->. apply Hfresh.
        apply list_elem_of_fmap. by exists (k, v'). }
    congruence.
  - by rewrite decide_False by set_solver.
Qed.
End CellFacts.

Section ConvertFacts.
Variable sol : solution.
Hypothesis Hsol : evaluates sol.
Variable h0 : heap.
Variable rank : loc -> nat.

Lemma cells_of_not_instance d l : dict_of h0 l = None -> cells_of d h0 l = ∅.
Proof. intros H. destruct d; cbn; [done | by rewrite H]. Qed.

Section Level.
Variable d : nat.
Let method := substitute_solution sol d.
Hypothesis IHd : forall l C, is_Some (dict_of h0 l) -> rank l < d ->
  method l (solved_cells sol C h0)
  = Returns (VRef l) (solved_cells sol (C ∪ cells_of d h0 l) h0).

Lemma convert_solved v : forall C,
  (forall l, l ∈ refs v -> is_Some (dict_of h0 l) -> rank l < d) ->
  convert sol method v (solved_cells sol C h0)
  = Returns (solved sol v)
      (solved_cells sol (C ∪ ⋃ (List.map (cells_of d h0) (refs v))) h0).
Proof.
  induction v as [|b|n|x|s|e|items IH|items IH|l] using pyval_nested_ind; intros C Hrefs.
  - cbn. rewrite (Hsol VNone). cbn. do 2 f_equal. set_solver.
  - cbn. destruct (Hsol (VBool b)) as [[x ->]| ->]; cbn; do 2 f_equal; set_solver.
  - cbn. destruct (Hsol (VInt n)) as [[x ->]| ->]; cbn; do 2 f_equal; set_solver.
  - cbn. destruct (Hsol (VFloat x)) as [->| ->]; cbn; do 2 f_equal; set_solver.
  - cbn. rewrite (Hsol (VStr s)). cbn. do 2 f_equal. set_solver.
  - cbn. destruct (Hsol (VSym e)) as [x ->]; cbn; do 2 f_equal; set_solver.
  - cbn [convert]. rewrite (Hsol (VList items)). rewrite solved_list by done.
    match goal with |- match ?f items _ with _ => _ end = _ => set (each := f) end.
    cbn [refs] in *.
    enough (Heach : each items (solved_cells sol C h0)
            = Returns (List.map (solved sol) items)
                (solved_cells sol
                   (C ∪ ⋃ (List.map (cells_of d h0) (concat (List.map refs items)))) h0))
      by (by rewrite Heach).
    clearbody method. revert C Hrefs.
    induction IH as [|i items Hi _ IH]; intros C Hrefs; cbn.
    + do 2 f_equal. set_solver.
    + rewrite Hi by (intros l Hl; apply Hrefs; cbn; apply elem_of_app; auto).
      rewrite IH by (intros l Hl; apply Hrefs; cbn; apply elem_of_app; auto).
      do 2 f_equal. rewrite map_app, union_list_app_L. set_solver.
  - cbn [convert]. rewrite (Hsol (VTuple items)). rewrite solved_tuple by done.
    match goal with |- match ?f items _ with _ => _ end = _ => set (each := f) end.
    cbn [refs] in *.
    enough (Heach : each items (solved_cells sol C h0)
            = Returns (List.map (solved sol) items)
                (solved_cells sol
                   (C ∪ ⋃ (List.map (cells_of d h0) (concat (List.map refs items)))) h0))
      by (by rewrite Heach).
    clearbody method. revert C Hrefs.
    induction IH as [|i items Hi _ IH]; intros C Hrefs; cbn.
    + do 2 f_equal. set_solver.
    + rewrite Hi by (intros l Hl; apply Hrefs; cbn; apply elem_of_app; auto).
      rewrite IH by (intros l Hl; apply Hrefs; cbn; apply elem_of_app; auto).
      do 2 f_equal. rewrite map_app, union_list_app_L. set_solver.
  - cbn [convert]. rewrite (Hsol (VRef l)). rewrite solved_ref by done.
    rewrite lookup_solved_cells. cbn [refs List.map union_list].
    destruct (h0 !! l) as [[attrs| |]|] eqn:Hl; cbn.
    + rewrite IHd.
      * do 2 f_equal. set_solver.
      * unfold dict_of. rewrite Hl. eauto.
      * apply Hrefs; [cbn; set_solver|]. unfold dict_of. rewrite Hl. eauto.
    + rewrite cells_of_not_instance by (unfold dict_of; by rewrite Hl).
      do 2 f_equal. set_solver.
    + rewrite cells_of_not_instance by (unfold dict_of; by rewrite Hl).
      do 2 f_equal. set_solver.
    + rewrite cells_of_not_instance by (unfold dict_of; by rewrite Hl).
      do 2 f_equal. set_solver.
Qed.

Lemma each_attribute_solved self attrs :
  dict_of h0 self = Some attrs -> NoDup (Dict.keys attrs) ->
  (forall l, l ∈ refs_of_dict attrs -> is_Some (dict_of h0 l) -> rank l < d) ->
  forall names C, (forall k, k ∈ names -> k ∈ Dict.keys attrs) ->
  each_attribute sol method self names (solved_cells sol C h0)
  = Returns tt
      (solved_cells sol
         (C ∪ list_to_set (List.map (fun k => (self, k)) names)
            ∪ ⋃ (List.map (cells_of d h0) (refs_at attrs names))) h0).
Proof.
  intros Hself Hnd Hrank. induction names as [|k names IH]; intros C Hnames.
  { cbn. do 2 f_equal. set_solver. }
  cbn [each_attribute]. rewrite attr_solved_cells.
  destruct (proj2 (dict_get_is_Some attrs k)) as [v0 Hv0]; [apply Hnames; set_solver|].
  assert (Hattr : attr h0 self k = Some v0) by (unfold attr; rewrite Hself; done).
  rewrite Hattr. cbn [fmap option_fmap option_map].
  assert (Hsub : forall l, l ∈ refs v0 -> l ∈ refs_of_dict attrs).
  { intros l Hl. unfold refs_of_dict. apply list_elem_of_In, in_concat.
    exists (refs v0). split; [|by apply list_elem_of_In].
    apply in_map_iff. exists (k, v0). split; [done|]. apply list_elem_of_In.
    clear -Hv0. induction attrs as [|[k1 v1] attrs IH]; [done|]. cbn in Hv0.
    destruct (decide (k1 = k)) as [->|]; [injection Hv0 as ->; set_solver | set_solver]. }
  unfold refs_at. cbn [List.map concat]. rewrite Hv0. cbn [from_option].
  fold (refs_at attrs names). rewrite map_app, union_list_app_L.
  set (v := if decide ((self, k) ∈ C) then solved_attr sol v0 else v0).
  assert (Hrefs_v : refs v = refs v0).
  { unfold v. destruct (decide _); [by apply refs_solved_attr | done]. }
  destruct (is_number v) eqn:Hnum.
  - rewrite IH by (intros; apply Hnames; set_solver).
    rewrite <- Hrefs_v, (is_number_refs v Hnum). cbn [List.map union_list].
    rewrite <- (solved_cells_add_stable sol _ h0 self attrs k v0 Hself Hnd Hv0).
    + f_equal. f_equal. set_solver.
    + unfold v in Hnum. destruct (decide ((self, k) ∈ C)); [left; set_solver|].
      right. unfold solved_attr. by rewrite Hnum.
  - assert (Hnum0 : is_number v0 = false).
    { destruct (is_number v0) eqn:H0; [|done]. unfold v, solved_attr in Hnum.
      rewrite H0 in Hnum. destruct (decide ((self, k) ∈ C)); congruence. }
    assert (Hsolved : solved sol v = solved_attr sol v0).
    { unfold v, solved_attr. rewrite Hnum0.
      destruct (decide _); [by apply solved_idem | done]. }
    rewrite convert_solved.
    2:{ intros l Hl. rewrite Hrefs_v in Hl. apply Hrank. by apply Hsub. }
    rewrite Hsolved, Hrefs_v.
    rewrite (setattr_solved_cells sol _ h0 self attrs k v0 Hself Hnd Hv0).
    rewrite IH by (intros; apply Hnames; set_solver).
    f_equal. f_equal. set_solver.
Qed.
End Level.

Hypothesis Hdistinct : distinct_keys h0.
Hypothesis Hranked : ranked rank h0.

Lemma refs_at_keys attrs :
  NoDup (Dict.keys attrs) -> refs_at attrs (Dict.keys attrs) = refs_of_dict attrs.
Proof.
  intros Hnd. unfold refs_at, refs_of_dict, Dict.keys. f_equal.
  rewrite map_map. apply map_ext_in. intros [k v] Hin. cbn.
  enough (Dict.get attrs k = Some v) as -> by done.
  apply list_elem_of_In in Hin. clear -Hnd Hin.
  induction attrs as [|[k1 v1] attrs IH]; [by apply elem_of_nil in Hin|].
  cbn in *. apply NoDup_cons in Hnd as [Hfresh Hnd].
  apply elem_of_cons in Hin as [Heq|Hin].
  - injection Heq as <- <-. by rewrite decide_True.
  - rewrite decide_False; [by apply IH|]. intros ->. apply Hfresh.
    apply list_elem_of_fmap. by exists (k, v).
Qed.

(** Run on a store in which the cells [C] are solved already,
    [substitute_solution] solves the cells of the object and of what it
    owns, and returns the object. *)
Lemma substitute_solution_cells d : forall self C,
  is_Some (dict_of h0 self) -> rank self < d ->
  substitute_solution sol d self (solved_cells sol C h0)
  = Returns (VRef self) (solved_cells sol (C ∪ cells_of d h0 self) h0).
Proof.
  induction d as [|d IH]; intros self C [attrs Hself] Hd; [lia|].
  cbn [substitute_solution cells_of]. rewrite dict_of_solved_cells, Hself.
  cbn [fmap option_fmap option_map]. rewrite keys_map_cells.
  rewrite (each_attribute_solved d IH self attrs Hself).
  - rewrite refs_at_keys by (by eapply Hdistinct). f_equal. f_equal. set_solver.
  - by eapply Hdistinct.
  - intros l Hl Hinst. pose proof (Hranked self attrs l Hself Hl Hinst). lia.
  - done.
Qed.
End ConvertFacts.

(** *** The owned objects and their cells *)
Lemma elem_of_cells_of d h self l k :
  (l, k) ∈ cells_of d h self <->
  l ∈ owned d h self /\ exists attrs, dict_of h l = Some attrs /\ k ∈ Dict.keys attrs.
Proof.
  revert self. induction d as [|d IH]; intros self; cbn; [set_solver|].
  destruct (dict_of h self) as [attrs|] eqn:Hself; [|set_solver].
  rewrite !elem_of_union, !elem_of_union_list, elem_of_list_to_set.
  split.
  - intros [Hhere|(X & HX & Hin)].
    + apply list_elem_of_In, in_map_iff in Hhere as (k' & Heq & Hk').
      injection Heq as -> ->. split; [left; set_solver|].
      exists attrs. split; [done | by apply list_elem_of_In].
    + apply list_elem_of_In, in_map_iff in HX as (l' & <- & Hl').
      apply IH in Hin as [Hown Hk]. split; [|done]. right.
      exists (owned d h l'). split; [|done].
      apply list_elem_of_In, in_map_iff. eauto.
  - intros [[Hl|(X & HX & Hin)] (attrs' & Hattrs' & Hk)].
    + apply elem_of_singleton in Hl as ->. left.
      assert (attrs' = attrs) as -> by congruence.
      apply list_elem_of_In, in_map_iff. exists k. split; [done | by apply list_elem_of_In].
    + apply list_elem_of_In, in_map_iff in HX as (l' & <- & Hl'). right.
      exists (cells_of d h l'). split; [apply list_elem_of_In, in_map_iff; eauto|].
      apply IH. eauto.
Qed.

Lemma cells_of_owner d h self l k : (l, k) ∈ cells_of d h self -> l ∈ owned d h self.
Proof. intros H. by apply elem_of_cells_of in H as [? _]. Qed.

Lemma map_cells_all (sol : solution) (C : gset (loc * string)) l attrs :
  (forall k, k ∈ Dict.keys attrs -> (l, k) ∈ C) ->
  List.map (cell_value sol C l) attrs = solved_dict sol attrs.
Proof.
  intros Hall. apply map_ext_in. intros [k v] Hin. unfold cell_value. cbn.
  rewrite decide_True; [done|]. apply Hall.
  apply list_elem_of_fmap. exists (k, v). split; [done | by apply list_elem_of_In].
Qed.

Lemma map_cells_none (sol : solution) (C : gset (loc * string)) l attrs :
  (forall k, (l, k) ∉ C) -> List.map (cell_value sol C l) attrs = attrs.
Proof.
  intros Hnone. rewrite <- (map_id attrs) at 2. apply map_ext. intros [k v].
  unfold cell_value. cbn. by rewrite decide_False.
Qed.

(** What [substitute_solution] does to a well-founded store. *)
Lemma substitute_solution_spec (sol : solution) rank depth (h : heap) self attrs :
  evaluates sol -> distinct_keys h -> ranked rank h -> rank self < depth ->
  dict_of h self = Some attrs ->
  exists h',
    substitute_solution sol depth self h = Returns (VRef self) h' /\
    dict_of h' self = Some (solved_dict sol attrs) /\
    (forall l attrs_l, l ∈ owned depth h self -> dict_of h l = Some attrs_l ->
       dict_of h' l = Some (solved_dict sol attrs_l)) /\
    (forall l, l ∉ owned depth h self -> h' !! l = h !! l) /\
    (forall l k v, attr h l k = Some v -> is_number v = true -> attr h' l k = Some v) /\
    (forall l k v, l ∈ owned depth h self -> attr h' l k = Some v -> sym_free v = true) /\
    substitute_solution sol depth self h' = Returns (VRef self) h'.
Proof.
  intros Hsol Hdistinct Hranked Hdepth Hself.
  set (C := cells_of depth h self).
  assert (Hrun : forall C0, substitute_solution sol depth self (solved_cells sol C0 h)
                 = Returns (VRef self) (solved_cells sol (C0 ∪ C) h)).
  { intros C0. eapply substitute_solution_cells; eauto. }
  assert (Hown : forall l attrs_l, l ∈ owned depth h self -> dict_of h l = Some attrs_l ->
            dict_of (solved_cells sol C h) l = Some (solved_dict sol attrs_l)).
  { intros l attrs_l Hl Hattrs. rewrite dict_of_solved_cells, Hattrs. cbn. f_equal.
    apply map_cells_all. intros k Hk. apply elem_of_cells_of. eauto. }
  assert (Hself_owned : self ∈ owned depth h self).
  { destruct depth; [lia|]. cbn. rewrite Hself. set_solver. }
  exists (solved_cells sol C h). split_and!.
  - rewrite <- (solved_cells_empty sol h) at 1. rewrite Hrun. do 2 f_equal. set_solver.
  - by apply Hown.
  - exact Hown.
  - intros l Hl. rewrite lookup_solved_cells.
    destruct (h !! l) as [[attrs_l| |]|]; cbn; try done.
    rewrite map_cells_none; [done|]. intros k Hk. by apply cells_of_owner in Hk.
  - intros l k v Hv Hnum. rewrite attr_solved_cells, Hv. cbn.
    destruct (decide _); [|done]. unfold solved_attr. by rewrite Hnum.
  - intros l k v Hl Hv. rewrite attr_solved_cells in Hv.
    destruct (attr h l k) as [v0|] eqn:Hv0; [|done]. cbn in Hv.
    rewrite decide_True in Hv.
    + injection Hv as <-. by apply sym_free_solved_attr.
    + apply elem_of_cells_of. split; [done|]. unfold attr in Hv0.
      destruct (dict_of h l) as [attrs_l|]; [|done]. exists attrs_l. split; [done|].
      apply dict_get_is_Some. cbn in Hv0. eauto.
  - rewrite Hrun. do 2 f_equal. set_solver.
Qed.

(** C4, as amended.  Let the solution evaluate symbolic expressions to
    numbers, floats to themselves, and nothing else but numbers; let the keys
    of every [__dict__] be distinct and the ownership of objects be well
    founded, within the recursion depth.  Then [substitute_solution] returns
    the object itself and works in place: every attribute of the object and
    of the instances it owns holds the solved value of what it held
    (symbolic expressions replaced by their numbers, inside lists and tuples
    too, a tuple becoming a list); objects that it does not own are
    untouched; no attribute that is a plain bool, int or float changes,
    anywhere; nothing symbolic is left in the attributes of the owned
    objects; and a second application with the same solution leaves the
    store as it is. *)
Theorem substitute_solution_in_place (sol : solution) rank depth (h : heap) self attrs :
  evaluates sol -> distinct_keys h -> ranked rank h -> rank self < depth ->
  dict_of h self = Some attrs ->
  exists h',
    substitute_solution sol depth self h = Returns (VRef self) h' /\
    dict_of h' self = Some (solved_dict sol attrs) /\
    (forall l attrs_l, l ∈ owned depth h self -> dict_of h l = Some attrs_l ->
       dict_of h' l = Some (solved_dict sol attrs_l)) /\
    (forall l, l ∉ owned depth h self -> h' !! l = h !! l) /\
    (forall l k v, attr h l k = Some v -> is_number v = true -> attr h' l k = Some v) /\
    (forall l k v, l ∈ owned depth h self -> attr h' l k = Some v -> sym_free v = true) /\
    substitute_solution sol depth self h' = Returns (VRef self) h'.
Proof. apply substitute_solution_spec. Qed.

(** *** Attributes in the store *)
Section StoreFacts.
Implicit Types (h : heap) (l : loc) (k : string) (v : pyval).

Lemma dict_of_setattr h l k v l' :
  dict_of (setattr l k v h) l'
  = if decide (l' = l) then (fun attrs => Dict.set attrs k v) <$> dict_of h l
    else dict_of h l'.
Proof.
  unfold setattr, dict_of. destruct (decide (l' = l)) as [->|Hne].
  - destruct (h !! l) as [[attrs| |]|] eqn:Hl; cbn; rewrite ?Hl; try done.
    by rewrite lookup_insert_eq.
  - destruct (h !! l) as [[attrs| |]|] eqn:Hl; try done.
    by rewrite lookup_insert_ne.
Qed.


Lemma attr_setattr_eq h l k v :
  is_Some (dict_of h l) -> attr (setattr l k v h) l k = Some v.
Proof.
  intros [attrs Hl]. unfold attr. rewrite dict_of_setattr, decide_True, Hl by done.
  cbn. apply dict_get_set_eq.
Qed.

Lemma attr_setattr_ne h l k v l' k' :
  (l', k') <> (l, k) -> attr (setattr l k v h) l' k' = attr h l' k'.
Proof.
  intros Hne. unfold attr. rewrite dict_of_setattr.
  destruct (decide (l' = l)) as [->|]; [|done].
  destruct (dict_of h l) as [attrs|]; cbn; [|done].
  apply dict_get_set_ne. congruence.
Qed.

(** Assigning twice to an attribute is assigning the last value. *)
Lemma dict_set_set {V} (d : Dict.t V) k (v1 v2 : V) :
  Dict.set (Dict.set d k v1) k v2 = Dict.set d k v2.
Proof.
  induction d as [|[k' v'] d IH]; cbn.
  - by rewrite decide_True.
  - destruct (decide (k' = k)) as [->|Hne]; cbn.
    + by rewrite decide_True.
    + rewrite decide_False by done. by rewrite IH.
Qed.

Lemma setattr_setattr h l k v1 v2 :
  setattr l k v2 (setattr l k v1 h) = setattr l k v2 h.
Proof.
  unfold setattr. destruct (h !! l) as [[attrs| |]|] eqn:Hl; rewrite ?Hl; try done.
  rewrite lookup_insert_eq, insert_insert_eq. by rewrite dict_set_set.
Qed.
End StoreFacts.

(** *** The properties [opti] and [opti_provided] *)
Import ImplicitAnalysis.

Lemma opti_set_opti (h : heap) self v :
  is_Some (dict_of h self) -> opti self (set_opti self v h) = Ok v.
Proof. intros H. unfold opti, set_opti. by rewrite attr_setattr_eq. Qed.

Lemma opti_provided_set_opti_provided (h : heap) self v :
  is_Some (dict_of h self) -> opti_provided self (set_opti_provided self v h) = Ok v.
Proof. intros H. unfold opti_provided, set_opti_provided. by rewrite attr_setattr_eq. Qed.

Lemma opti_set_opti_provided (h : heap) self v :
  opti self (set_opti_provided self v h) = opti self h.
Proof. unfold opti, set_opti_provided. by rewrite attr_setattr_ne. Qed.

Lemma is_Some_dict_of_setattr (h : heap) l k v l' :
  is_Some (dict_of (setattr l k v h) l') <-> is_Some (dict_of h l').
Proof.
  rewrite dict_of_setattr. destruct (decide (l' = l)) as [->|]; [|done].
  by rewrite fmap_is_Some.
Qed.

(** C6. Reading [opti] or [opti_provided] of an object whose [_opti] or
    [_opti_provided] attribute was never stored raises
    [ImplicitAnalysisInitError]; once the attribute is stored, the property
    returns the stored value and does not raise.  After the two assignments
    with which [init_wrapped] starts, [opti] returns the environment and
    [opti_provided] the flag. *)
Theorem opti_properties_need_initialization (h : heap) self :
  (attr h self "_opti" = None -> opti self h = Raise ImplicitAnalysisInitError) /\
  (attr h self "_opti_provided" = None ->
     opti_provided self h = Raise ImplicitAnalysisInitError) /\
  (forall v, attr h self "_opti" = Some v -> opti self h = Ok v) /\
  (forall v, attr h self "_opti_provided" = Some v -> opti_provided self h = Ok v) /\
  (forall env provided, is_Some (dict_of h self) ->
     let h' := set_opti_provided self (VBool provided) (set_opti self (VRef env) h) in
     opti self h' = Ok (VRef env) /\ opti_provided self h' = Ok (VBool provided)).
Proof.
  unfold opti, opti_provided. split_and!.
  - by intros ->.
  - by intros ->.
  - by intros v ->.
  - by intros v ->.
  - intros env provided Hself. cbn. split.
    + fold (opti self (set_opti_provided self (VBool provided) (set_opti self (VRef env) h))).
      rewrite opti_set_opti_provided. by apply opti_set_opti.
    + fold (opti_provided self
              (set_opti_provided self (VBool provided) (set_opti self (VRef env) h))).
      apply opti_provided_set_opti_provided. by apply is_Some_dict_of_setattr.
Qed.

(** *** [init_wrapped] *)


(** The constructor of a standalone analysis, once the body has returned. *)
Lemma init_wrapped_standalone_unfold
    (solve : opti_state -> res solution) (x_shape : opti_state -> nat * nat) depth
    (init_method : loc -> heap -> outcome heap unit) self (w : world) env h0 h1 p st :
  alloc (Environment empty_opti) (store w) = (env, h0) ->
  init_method self (set_opti_provided self (VBool false) (set_opti self (VRef env) h0))
  = Returns tt h1 ->
  opti_provided self h1 = Ok p -> truthy p = false ->
  opti self h1 = Ok (VRef env) ->
  h1 !! env = Some (Environment st) ->
  init_wrapped solve x_shape depth init_method self None w
  = if decide (x_shape st = (0, 1)) then Returns tt (World h1 (calls w))
    else solve_and_substitute solve depth self env st h1 (calls w).
Proof.
  intros Halloc Hbody Hflag Hp Hopti Henv. unfold init_wrapped.
  rewrite Halloc, Hbody, Hflag, Hp, Hopti.
  unfold environment_of. by rewrite Henv.
Qed.





Lemma dict_get_solved_dict sol (attrs : Dict.t pyval) k :
  Dict.get (solved_dict sol attrs) k = solved_attr sol <$> Dict.get attrs k.
Proof.
  induction attrs as [|[k' v'] attrs IH]; cbn; [done|].
  destruct (decide (k' = k)); [done | apply IH].
Qed.

(** *** Zero divisors *)

(** A float compares equal to zero when it is one of the two zeros. *)
Lemma is_zero_cases x : is_zero x = true -> x = 0%float \/ x = (-0)%float.
Proof.
  unfold is_zero. rewrite FloatAxioms.eqb_spec. intros H.
  rewrite <- (FloatAxioms.SF2Prim_Prim2SF x).
  destruct (FloatOps.Prim2SF x) as [s|s| |s m e].
  - destruct s; [right | left]; reflexivity.
  - destruct s; discriminate H.
  - discriminate H.
  - destruct s; discriminate H.
Qed.

(** Divisions by 30 and by pi never raise; the others are taken both ways. *)
Ltac divide_exactly :=
  match goal with
  | |- context [truediv ?a 30] => rewrite (truediv_30 a); cbn -[truediv]
  | |- context [truediv ?a pi] => rewrite (truediv_pi a); cbn -[truediv]
  | |- context [truediv ?a ?b] =>
      destruct (truediv_cases a b) as [-> | ->]; cbn -[truediv]
  end.

(** X1. Called with a well-posed pair of float arguments, the [while] loop
    of [motor_electric_performance] runs its body at least once; one pass is
    enough for every pair but rpm with torque, which takes exactly two (the
    first pass derives the current, the second the voltage).  Beyond that
    number the bound on the passes plays no role. *)
Theorem motor_second_pass_only_for_rpm_and_torque (v i r t : option float)
    (kv resistance no_load_current : float) :
  well_posed v i r t = true ->
  motor_electric_performance 0 v i r t kv resistance no_load_current = None /\
  if is_not_None r && is_not_None t then
    motor_electric_performance 1 v i r t kv resistance no_load_current = None /\
    exists out, forall n,
      motor_electric_performance (2 + n) v i r t kv resistance no_load_current = Some out
  else
    exists out, forall n,
      motor_electric_performance (1 + n) v i r t kv resistance no_load_current = Some out.
Proof.
  intros Hw.
  destruct v as [v|], i as [i|], r as [r|], t as [t|]; try discriminate Hw; clear Hw;
    (split; [reflexivity|]); cbn [is_not_None andb]; try (split; [reflexivity|]);
    motor_unfold; cbn -[truediv]; repeat divide_exactly;
    eexists; intros n; destruct n; reflexivity.
Qed.

Lemma motor_second_pass_only_for_rpm_and_torque_witness :
  motor_electric_performance 0 None None (Some 4700%float) (Some 0x1.96c8e48ad98d5p-6%float)
    default_kv default_resistance default_no_load_current = None /\
  motor_electric_performance 1 None None (Some 4700%float) (Some 0x1.96c8e48ad98d5p-6%float)
    default_kv default_resistance default_no_load_current = None /\
  exists out, forall n,
    motor_electric_performance (2 + n) None None (Some 4700%float)
      (Some 0x1.96c8e48ad98d5p-6%float)
      default_kv default_resistance default_no_load_current = Some out.
Proof.
  apply (motor_second_pass_only_for_rpm_and_torque None None (Some 4700%float)
           (Some 0x1.96c8e48ad98d5p-6%float)).
  reflexivity.
Defined.

(** X2. The two assertions of [motor_electric_performance], in their order:
    with fewer or more than two of the four quantities supplied the call
    fails with the message about the number of arguments, also when current
    and torque are both among them; with exactly current and torque it fails
    with the message about the ill-posed problem.  Neither depends on [kv],
    [resistance] or [no_load_current], which are not looked at before. *)
Theorem motor_assertion_messages (v i r t : option float)
    (kv resistance no_load_current : float) (n : nat) :
  (exactly_two (is_not_None v) (is_not_None i) (is_not_None r) (is_not_None t) = false ->
     motor_electric_performance n v i r t kv resistance no_load_current
     = Some (Raise (AssertionError "You must give exactly two input arguments."))) /\
  (exactly_two (is_not_None v) (is_not_None i) (is_not_None r) (is_not_None t) = true ->
   is_not_None i && is_not_None t = true ->
     v = None /\ r = None /\
     motor_electric_performance n v i r t kv resistance no_load_current
     = Some (Raise (AssertionError
         "You cannot supply the combination of current and torque - this makes for an ill-posed problem."))).
Proof.
  split.
  - intros H. unfold motor_electric_performance. by rewrite H.
  - intros H Hit. destruct v, i, r, t; try discriminate H; try discriminate Hit. done.
Qed.

Lemma motor_assertion_messages_witness :
  motor_electric_performance 5 (Some 12%float) (Some 3%float) None (Some 1%float)
    default_kv default_resistance default_no_load_current
  = Some (Raise (AssertionError "You must give exactly two input arguments.")).
Proof.
  apply (proj1 (motor_assertion_messages (Some 12%float) (Some 3%float) None (Some 1%float)
                  default_kv default_resistance default_no_load_current 5)).
  reflexivity.
Defined.

(** X3. When neither [kv * pi / 30], the speed constant in radians per
    second per volt, nor [resistance] is zero, no division inside the loop
    has a zero divisor: for a well-posed pair of float arguments the
    loop ends with the four quantities known, the supplied ones unchanged,
    and the only thing that can still raise is the efficiency, which divides
    by [voltage * current]: the call raises [ZeroDivisionError] when that
    product is zero and returns the five values otherwise. *)
Theorem motor_raises_only_on_zero_power (v i r t : option float)
    (kv resistance no_load_current : float) :
  well_posed v i r t = true ->
  is_zero (kv * pi / 30) = false -> is_zero resistance = false ->
  exists v' i' r' t',
    keeps v v' /\ keeps i i' /\ keeps r r' /\ keeps t t' /\
    while_loop (kv * pi / 30) resistance no_load_current 2
      (Locals v i r t (is_not_None v) (is_not_None i) (is_not_None r) (is_not_None t))
    = Some (Ok (Locals (Some v') (Some i') (Some r') (Some t') true true true true)) /\
    motor_electric_performance 2 v i r t kv resistance no_load_current
    = Some (if is_zero (v' * i') then Raise ZeroDivisionError
            else Ok (Performance v' i' r' t' (r' * pi / 30 * t' / (v' * i')))).
Proof.
  intros Hw Hkv Hres.
  assert (Hdiv_kv : forall a, truediv a (kv * pi / 30) = Ok (a / (kv * pi / 30))%float).
  { intros a. unfold truediv. by rewrite Hkv. }
  assert (Hdiv_res : forall a, truediv a resistance = Ok (a / resistance)%float).
  { intros a. unfold truediv. by rewrite Hres. }
  destruct v as [v|], i as [i|], r as [r|], t as [t|]; try discriminate Hw; clear Hw;
    motor_unfold; cbn -[truediv];
    repeat first [ rewrite truediv_30 | rewrite truediv_pi | rewrite Hdiv_kv
                 | rewrite Hdiv_res | progress cbn -[truediv] ];
    do 4 eexists; (split_and!; [cbn; try reflexivity; exact I ..| reflexivity |]);
    unfold truediv, is_zero;
    match goal with |- context [PrimFloat.eqb ?x ?y] => by destruct (PrimFloat.eqb x y) end.
Qed.

Lemma is_zero_kv_rads kv : is_zero kv = true -> is_zero (kv * pi / 30) = true.
Proof. intros H. by destruct (is_zero_cases kv H) as [-> | ->]. Qed.

(** X4. Zero motor constants.  With [kv] equal to zero (of either sign) the
    call raises [ZeroDivisionError] for every well-posed pair of float
    arguments other than voltage with torque, the one pair for which the loop
    divides by nothing that depends on [kv]; with [resistance] equal to zero
    it raises [ZeroDivisionError] when voltage and rpm are supplied, the one
    pair for which the loop divides by the resistance. *)
Theorem motor_zero_constants_raise (v i r t : option float)
    (kv resistance no_load_current : float) (n : nat) :
  well_posed v i r t = true ->
  (is_zero kv = true /\ is_not_None v && is_not_None t = false) \/
  (is_zero resistance = true /\ is_not_None v && is_not_None r = true) ->
  motor_electric_performance (2 + n) v i r t kv resistance no_load_current
  = Some (Raise ZeroDivisionError).
Proof.
  intros Hw [[Hkv Hvt] | [Hres Hvr]].
  - apply is_zero_kv_rads in Hkv.
    assert (Hdiv : forall a, truediv a (kv * pi / 30) = Raise ZeroDivisionError).
    { intros a. unfold truediv. by rewrite Hkv. }
    destruct v as [v|], i as [i|], r as [r|], t as [t|];
      try discriminate Hw; try discriminate Hvt; clear Hw Hvt;
      motor_unfold; cbn -[truediv];
      repeat first [ rewrite truediv_30 | rewrite truediv_pi | rewrite Hdiv
                   | progress cbn -[truediv] ];
      reflexivity.
  - assert (Hdiv : forall a, truediv a resistance = Raise ZeroDivisionError).
    { intros a. unfold truediv. by rewrite Hres. }
    destruct v as [v|], i as [i|], r as [r|], t as [t|];
      try discriminate Hw; try discriminate Hvr; clear Hw Hvr;
      motor_unfold; cbn -[truediv]; rewrite !truediv_30; cbn -[truediv];
      destruct (truediv_cases (r * pi / 30) (kv * pi / 30)) as [-> | ->]; cbn -[truediv];
      rewrite ?Hdiv; reflexivity.
Qed.

Lemma motor_zero_constants_raise_witness :
  motor_electric_performance (2 + 0) None (Some 3%float) (Some 100%float) None
    0 default_resistance default_no_load_current
  = Some (Raise ZeroDivisionError).
Proof.
  apply (motor_zero_constants_raise None (Some 3%float) (Some 100%float) None
           0 default_resistance default_no_load_current 0).
  - reflexivity.
  - left. split; reflexivity.
Defined.

Lemma motor_raises_only_on_zero_power_witness :
  exists v' i' r' t',
    keeps (Some 12%float) v' /\ keeps None i' /\ keeps (Some 4700%float) r' /\ keeps None t' /\
    while_loop (default_kv * pi / 30) default_resistance default_no_load_current 2
      (Locals (Some 12%float) None (Some 4700%float) None true false true false)
    = Some (Ok (Locals (Some v') (Some i') (Some r') (Some t') true true true true)) /\
    motor_electric_performance 2 (Some 12%float) None (Some 4700%float) None
      default_kv default_resistance default_no_load_current
    = Some (if is_zero (v' * i') then Raise ZeroDivisionError
            else Ok (Performance v' i' r' t' (r' * pi / 30 * t' / (v' * i')))).
Proof.
  apply (motor_raises_only_on_zero_power (Some 12%float) None (Some 4700%float) None
           default_kv default_resistance default_no_load_current); reflexivity.
Defined.

(** *** More on option validation *)

Lemma defaults_for_keys an keys acc :
  NoDup (Dict.keys acc ++ keys) ->
  (forall k, k ∈ keys -> is_Some (Dict.get (default_analysis_specific_options an) k)) ->
  exists d, defaults_for an keys acc = Ok d /\ Dict.keys d = (Dict.keys acc ++ keys)%list.
Proof.
  revert acc. induction keys as [|key keys IH]; intros acc Hnd Hdef; cbn.
  - exists acc. by rewrite app_nil_r.
  - destruct (Hdef key) as [v Hv]; [apply elem_of_cons; auto|].
    unfold Dict.subscript. rewrite Hv. cbn.
    assert (Hfresh : key ∉ Dict.keys acc).
    { apply NoDup_app in Hnd as (_ & Hdisj & _). intros Hin.
      apply (Hdisj key Hin). apply elem_of_cons. auto. }
    destruct (IH (Dict.set acc key v)) as (d & Hd & Hkeys).
    + rewrite dict_keys_set_fresh by done. by rewrite <- app_assoc.
    + intros k Hk. apply Hdef, elem_of_cons. auto.
    + exists d. split; [done|]. rewrite Hkeys, dict_keys_set_fresh by done.
      by rewrite <- app_assoc.
Qed.

Lemma defaults_for_missing an pre k post acc :
  (forall k', k' ∈ pre -> is_Some (Dict.get (default_analysis_specific_options an) k')) ->
  Dict.get (default_analysis_specific_options an) k = None ->
  defaults_for an (pre ++ k :: post) acc = Raise (KeyError k).
Proof.
  revert acc. induction pre as [|key pre IH]; intros acc Hdef Hk; cbn.
  - unfold Dict.subscript. by rewrite Hk.
  - destruct (Hdef key) as [v Hv]; [apply elem_of_cons; auto|].
    unfold Dict.subscript. rewrite Hv. cbn. apply IH; [|done].
    intros k' Hk'. apply Hdef, elem_of_cons. auto.
Qed.

Lemma defaults_for_NoDup an keys acc d :
  defaults_for an keys acc = Ok d -> NoDup (Dict.keys acc) -> NoDup (Dict.keys d).
Proof.
  revert acc. induction keys as [|key keys IH]; intros acc; cbn.
  - by intros [= ->].
  - destruct (Dict.subscript _ key) as [v|e]; cbn; [|done].
    intros Hd Hnd. apply (IH _ Hd). by apply dict_NoDup_keys_set.
Qed.

Lemma override_first_invalid cls an pre k v post opts :
  (forall k', k' ∈ Dict.keys pre -> k' ∈ Dict.keys opts) -> k ∉ Dict.keys opts ->
  override cls an (pre ++ (k, v) :: post) opts
  = Raise (ValueError (OptionError k cls (analysis_name an) (Dict.keys opts))).
Proof.
  revert opts. induction pre as [|[key value] pre IH]; intros opts Hpre Hk; cbn.
  - destruct (Dict.mem opts k) eqn:Hmem; [|done]. by apply dict_mem_keys in Hmem.
  - assert (Hkey : key ∈ Dict.keys opts) by (apply Hpre; cbn; apply elem_of_cons; auto).
    apply dict_mem_keys in Hkey as Hmem. rewrite Hmem.
    rewrite IH; rewrite dict_keys_set_present by done; [done | | done].
    intros k' Hk'. apply Hpre. cbn. apply elem_of_cons. auto.
Qed.

Lemma override_keys cls an user opts d :
  override cls an user opts = Ok d ->
  Dict.keys d = Dict.keys opts /\ (forall k, k ∈ Dict.keys user -> k ∈ Dict.keys opts).
Proof.
  revert opts. induction user as [|[key value] user IH]; intros opts; cbn.
  - intros [= ->]. split; [done|]. intros k Hk. by apply elem_of_nil in Hk.
  - destruct (Dict.mem opts key) eqn:Hmem; [|done]. apply dict_mem_keys in Hmem.
    intros Hd. destruct (IH _ Hd) as [Hkeys Hin].
    rewrite dict_keys_set_present in Hkeys, Hin by done.
    split; [done|]. intros k Hk. apply elem_of_cons in Hk as [->|Hk]; auto.
Qed.

(** Two dictionaries with the same keys, in the same order and distinct, and
    the same value at every key are the same dictionary. *)
Lemma dict_ext {V} (d1 d2 : Dict.t V) :
  Dict.keys d1 = Dict.keys d2 -> NoDup (Dict.keys d1) ->
  (forall k, Dict.get d1 k = Dict.get d2 k) -> d1 = d2.
Proof.
  revert d2. induction d1 as [|[k v] d1 IH]; intros [|[k2 v2] d2]; cbn; try done.
  intros [= <- Hkeys] Hnd Hget. apply NoDup_cons in Hnd as [Hfresh Hnd].
  pose proof (Hget k) as Hk. rewrite !decide_True in Hk by done. injection Hk as <-.
  f_equal. apply IH; [done | done |].
  intros k'. specialize (Hget k'). destruct (decide (k = k')) as [<-|Hne]; [|done].
  pose proof (proj2 (dict_get_None d1 k) Hfresh) as ->.
  symmetry. apply dict_get_None. unfold Dict.keys in *. by rewrite <- Hkeys.
Qed.

(** X5. Missing declarations come first.  When [analysis.option_keys] has no
    entry for the class of the object, [validate_analysis_specific_options]
    raises [KeyError] for the class; when a key listed there has no entry in
    [analysis.default_analysis_specific_options], it raises [KeyError] for
    the first such key.  Both happen whatever the user's dictionary holds,
    which is not looked at before the defaults are complete: an option that
    is not valid is not reported then. *)
Theorem validate_missing_declaration_raises_KeyError cls an user :
  (Dict.get (option_keys an) cls = None ->
     validate_analysis_specific_options cls an user = Raise (KeyError cls)) /\
  (forall pre k post,
     Dict.get (option_keys an) cls = Some (pre ++ k :: post) ->
     (forall k', k' ∈ pre -> is_Some (Dict.get (default_analysis_specific_options an) k')) ->
     Dict.get (default_analysis_specific_options an) k = None ->
     validate_analysis_specific_options cls an user = Raise (KeyError k)).
Proof.
  split.
  - intros H. unfold validate_analysis_specific_options, Dict.subscript. by rewrite H.
  - intros pre k post Hkeys Hpre Hk.
    unfold validate_analysis_specific_options, Dict.subscript. rewrite Hkeys. cbn.
    by rewrite defaults_for_missing.
Qed.

(** X6. The [ValueError] of [validate_analysis_specific_options] reports the
    first key of the user's dictionary, in its order, that is not an option
    of the analysis for this class; the keys after it are not examined.  The
    valid options that the message lists are the declared keys, in the order
    of their declaration. *)
Theorem validate_reports_first_invalid_key cls an keys pre k v post :
  declares an cls keys -> NoDup keys ->
  (forall k', k' ∈ Dict.keys pre -> k' ∈ keys) -> k ∉ keys ->
  validate_analysis_specific_options cls an (pre ++ (k, v) :: post)
  = Raise (ValueError (OptionError k cls (analysis_name an) keys)).
Proof.
  intros [Hkeys Hdef] Hnd Hpre Hk.
  destruct (defaults_for_keys an keys []) as (d0 & Hd0 & Hk0); [done | done |].
  cbn in Hk0. rewrite validate_unfold. unfold Dict.subscript. rewrite Hkeys. cbn.
  rewrite Hd0. cbn. rewrite override_first_invalid; rewrite Hk0; done.
Qed.

Lemma validate_idem cls an user d :
  validate_analysis_specific_options cls an user = Ok d ->
  validate_analysis_specific_options cls an d = Ok d.
Proof.
  rewrite !validate_unfold. unfold Dict.subscript.
  destruct (Dict.get (option_keys an) cls) as [keys|]; cbn; [|done].
  destruct (defaults_for an keys []) as [d0|] eqn:Hd0; cbn; [|done].
  intros Hd. apply override_keys in Hd as [Hkeys _].
  assert (Hnd0 : NoDup (Dict.keys d0)) by (apply (defaults_for_NoDup _ _ _ _ Hd0); constructor).
  destruct (override_valid cls an d d0) as (d' & Hd' & Hkeys' & Hget).
  { intros k. by rewrite Hkeys. }
  rewrite Hd'. f_equal. apply dict_ext.
  - by rewrite Hkeys', Hkeys.
  - by rewrite Hkeys'.
  - intros k. rewrite Hget by (by rewrite Hkeys).
    destruct (Dict.get d k) eqn:Hk; [done|].
    apply dict_get_None in Hk. rewrite Hkeys in Hk. by apply dict_get_None.
Qed.

(** X7. Validation is idempotent, and so is parsing: a dictionary that
    [validate_analysis_specific_options] has returned is returned unchanged
    when it is validated again, and an options dictionary that
    [parse_analysis_specific_options] has parsed (it is updated in place, so
    the caller's dictionary holds the validated entries afterwards) parses to
    itself; a second object can be constructed from it. *)
Theorem parse_idempotent cls (opts parsed : options_dict) :
  parse_analysis_specific_options cls opts = Ok parsed ->
  parse_analysis_specific_options cls parsed = Ok parsed /\
  parsed.*1 = opts.*1 /\
  Forall2 (fun before after => validate_analysis_specific_options cls before.1 before.2
                               = Ok after.2 /\
                               validate_analysis_specific_options cls after.1 after.2
                               = Ok after.2) opts parsed.
Proof.
  revert parsed. induction opts as [|[an user] opts IH]; intros parsed; cbn.
  - intros [= <-]. split_and!; [done | done | constructor].
  - destruct (validate_analysis_specific_options cls an user) as [d|] eqn:Hd; cbn; [|done].
    destruct (parse_analysis_specific_options cls opts) as [rest|]; cbn; [|done].
    intros [= <-]. destruct (IH rest eq_refl) as (Hrest & Hfst & Hall).
    apply validate_idem in Hd as Hd'. cbn. rewrite Hd', Hrest. cbn.
    split_and!; [done | by rewrite Hfst | by constructor].
Qed.

Lemma lookup_analysis_parsed cls (opts parsed : options_dict) an :
  parse_analysis_specific_options cls opts = Ok parsed ->
  (forall an' user, (an', user) ∈ opts -> analysis_name an' = analysis_name an -> an' = an) ->
  match lookup_analysis opts an with
  | None => lookup_analysis parsed an = None
  | Some user => exists d, validate_analysis_specific_options cls an user = Ok d /\
                           lookup_analysis parsed an = Some d
  end.
Proof.
  revert parsed. induction opts as [|[an' user] opts IH]; intros parsed; cbn.
  - by intros [= <-].
  - destruct (validate_analysis_specific_options cls an' user) as [d|] eqn:Hd; cbn; [|done].
    destruct (parse_analysis_specific_options cls opts) as [rest|]; cbn; [|done].
    intros [= <-] Hnames. cbn. destruct (decide (analysis_name an' = analysis_name an)) as [Heq|Hne].
    + assert (an' = an) as -> by (apply (Hnames an' user); [apply elem_of_cons; auto | done]).
      eauto.
    + apply IH; [done|]. intros an2 user2 Hin. apply (Hnames an2 user2), elem_of_cons. auto.
Qed.

Lemma validate_keys cls an user keys d :
  declares an cls keys ->
  validate_analysis_specific_options cls an user = Ok d ->
  forall k, k ∈ Dict.keys d <-> k ∈ keys.
Proof.
  intros [Hkeys Hdef]. rewrite validate_unfold. unfold Dict.subscript. rewrite Hkeys. cbn.
  destruct (defaults_for_spec an keys [] Hdef) as (d0 & Hd0 & Hk0 & _).
  rewrite Hd0. cbn. intros Hd k. apply override_keys in Hd as [-> _].
  rewrite Hk0, elem_of_nil. tauto.
Qed.

(** X8. Construction followed by a query.  For an airplane that
    [Airplane.__init__] has returned and an analysis that declares options
    for airplanes, [get_analysis_specific_options] returns a dictionary whose
    keys are exactly the declared keys: the validated form of the user's
    entry when the airplane was constructed with one for this analysis, and
    the defaults when it was not. *)
Theorem get_analysis_specific_options_after_init {Wing Fuselage : Type}
    (area mean_aerodynamic_chord span : Wing -> res pyval)
    name xyz_ref wings (fuselages : option (list Fuselage)) s_ref c_ref b_ref opts
    plane an keys :
  Airplane.init area mean_aerodynamic_chord span
    name xyz_ref wings fuselages s_ref c_ref b_ref opts = Ok plane ->
  declares an "Airplane" keys ->
  (forall an' user, (an', user) ∈ opts -> analysis_name an' = analysis_name an -> an' = an) ->
  exists d,
    get_analysis_specific_options "Airplane" (Airplane.analysis_specific_options plane) an
    = Ok d /\
    (forall k, k ∈ Dict.keys d <-> k ∈ keys) /\
    validate_analysis_specific_options "Airplane" an (default [] (lookup_analysis opts an))
    = Ok d.
Proof.
  intros Hinit Hdecl Hnames. unfold Airplane.init in Hinit.
  destruct (Airplane.assign_reference_values _ _ _ _ _ _ _) as [[[s c] b]|]; cbn in Hinit; [|done].
  destruct (parse_analysis_specific_options "Airplane" opts) as [parsed|] eqn:Hparse;
    cbn in Hinit; [|done].
  injection Hinit as <-. cbn.
  pose proof (lookup_analysis_parsed "Airplane" opts parsed an Hparse Hnames) as Hlook.
  unfold get_analysis_specific_options.
  destruct (lookup_analysis opts an) as [user|]; cbn.
  - destruct Hlook as (d & Hd & ->). exists d. split_and!; [done | | done].
    by apply (validate_keys "Airplane" an user).
  - rewrite Hlook. destruct Hdecl as [Hkeys Hdef].
    destruct (defaults_for_spec an keys [] Hdef) as (d0 & Hd0 & Hk0 & _).
    assert (Hv : validate_analysis_specific_options "Airplane" an [] = Ok d0).
    { unfold validate_analysis_specific_options, Dict.subscript. rewrite Hkeys. cbn.
      by rewrite Hd0. }
    exists d0. split_and!; [done | | done].
    intros k. rewrite Hk0, elem_of_nil. tauto.
Qed.

(** *** The order of the user's options *)

Lemma dict_get_elem_of {V} (d : Dict.t V) k (v : V) :
  NoDup (Dict.keys d) -> (k, v) ∈ d -> Dict.get d k = Some v.
Proof.
  induction d as [|[k' v'] d IH]; cbn; intros Hnd Hin.
  - by apply elem_of_nil in Hin.
  - apply NoDup_cons in Hnd as [Hfresh Hnd].
    apply elem_of_cons in Hin as [[= <- <-]|Hin]; [by rewrite decide_True|].
    rewrite decide_False; [by apply IH|].
    intros ->. apply Hfresh. apply list_elem_of_fmap. by exists (k, v).
Qed.

Lemma dict_get_perm {V} (d d' : Dict.t V) k :
  NoDup (Dict.keys d) -> d ≡ₚ d' -> Dict.get d k = Dict.get d' k.
Proof.
  intros Hnd Hperm.
  assert (Hnd' : NoDup (Dict.keys d')) by (unfold Dict.keys in *; by rewrite <- Hperm).
  destruct (Dict.get d k) as [v|] eqn:Hk.
  - symmetry. apply dict_get_elem_of; [done|]. rewrite <- Hperm.
    clear Hnd Hperm Hnd'. induction d as [|[k' v'] d IH]; cbn in Hk; [done|].
    destruct (decide (k' = k)) as [->|]; [injection Hk as ->; apply elem_of_cons; auto|].
    apply elem_of_cons. auto.
  - symmetry. apply dict_get_None. apply dict_get_None in Hk.
    unfold Dict.keys in *. by rewrite <- Hperm.
Qed.

(** X23. The order in which the user lists the options does not matter: when
    [validate_analysis_specific_options] accepts a dictionary (of distinct
    keys), it returns the very same dictionary, keys in the same order, for
    the same options listed in any other order. *)
Theorem validate_ignores_order_of_user_options cls an user user' d :
  NoDup (Dict.keys user) -> user ≡ₚ user' ->
  validate_analysis_specific_options cls an user = Ok d ->
  validate_analysis_specific_options cls an user' = Ok d.
Proof.
  intros Hnd Hperm. rewrite !validate_unfold. unfold Dict.subscript.
  destruct (Dict.get (option_keys an) cls) as [keys|]; cbn; [|done].
  destruct (defaults_for an keys []) as [d0|] eqn:Hd0; cbn; [|done].
  intros Hd. pose proof (override_keys _ _ _ _ _ Hd) as [Hkeys Hvalid].
  assert (Hnd' : NoDup (Dict.keys user')) by (unfold Dict.keys in *; by rewrite <- Hperm).
  destruct (override_valid cls an user d0 Hvalid) as (d1 & Hd1 & _ & Hget1).
  assert (d1 = d) as -> by congruence.
  destruct (override_valid cls an user' d0) as (d' & Hd' & Hkeys' & Hget').
  { intros k Hk. apply Hvalid. unfold Dict.keys in *. by rewrite Hperm. }
  rewrite Hd'. f_equal. apply dict_ext.
  - by rewrite Hkeys', Hkeys.
  - rewrite Hkeys'. apply (defaults_for_NoDup _ _ _ _ Hd0). constructor.
  - intros k. rewrite (Hget' Hnd'), (Hget1 Hnd). by rewrite (dict_get_perm user user').
Qed.

(** *** More on [Airplane.__init__] *)

(** X9. The [try] block of [Airplane.__init__] also covers the calls to the
    first wing's methods: an [IndexError] raised by one of them is swallowed
    like that of [self.wings[0]], and the reference values keep what they had
    at that point.  So when [area] returns and [mean_aerodynamic_chord]
    raises [IndexError], the airplane has its [s_ref] populated while [c_ref]
    and [b_ref] stay as given, [span] not being called; any other exception
    of a method that is called leaves the constructor. *)
Theorem airplane_init_swallows_index_error_of_wing_methods {Wing Fuselage : Type}
    (area mean_aerodynamic_chord span : Wing -> res pyval)
    name xyz_ref main_wing others (fuselages : option (list Fuselage)) c_ref b_ref :
  (area main_wing = Raise IndexError ->
     Airplane.init area mean_aerodynamic_chord span
       name xyz_ref (Some (main_wing :: others)) fuselages VNone c_ref b_ref
       Airplane.default_analysis_specific_options
     = Ok (Airplane.Build name xyz_ref (main_wing :: others) (default [] fuselages)
             VNone c_ref b_ref [])) /\
  (forall a, area main_wing = Ok a ->
     mean_aerodynamic_chord main_wing = Raise IndexError ->
     Airplane.init area mean_aerodynamic_chord span
       name xyz_ref (Some (main_wing :: others)) fuselages VNone VNone b_ref
       Airplane.default_analysis_specific_options
     = Ok (Airplane.Build name xyz_ref (main_wing :: others) (default [] fuselages)
             a VNone b_ref [])) /\
  (forall e opts, e <> IndexError -> area main_wing = Raise e ->
     Airplane.init area mean_aerodynamic_chord span
       name xyz_ref (Some (main_wing :: others)) fuselages VNone c_ref b_ref opts
     = Raise e).
Proof.
  split_and!.
  - intros Ha. unfold Airplane.init, Airplane.assign_reference_values, Airplane.populate.
    cbn. rewrite Ha. by destruct fuselages.
  - intros a Ha Hc. unfold Airplane.init, Airplane.assign_reference_values, Airplane.populate.
    cbn. rewrite Ha, Hc. by destruct fuselages.
  - intros e opts He Ha.
    unfold Airplane.init, Airplane.assign_reference_values, Airplane.populate.
    cbn. rewrite Ha. by destruct e.
Qed.

(** X10. Reference values that are all given are kept, and the wings are not
    asked for anything: the outcome of the constructor does not depend on
    what the methods of the first wing would return or raise, and is the
    same with or without wings, up to the stored wing list. *)
Theorem airplane_init_given_reference_values {Wing Fuselage : Type}
    (area mean_aerodynamic_chord span : Wing -> res pyval)
    name xyz_ref wings (fuselages : option (list Fuselage)) s_ref c_ref b_ref opts :
  is_None s_ref = false -> is_None c_ref = false -> is_None b_ref = false ->
  Airplane.init area mean_aerodynamic_chord span
    name xyz_ref wings fuselages s_ref c_ref b_ref opts
  = (parsed ← parse_analysis_specific_options "Airplane" opts;
     Ok (Airplane.Build name xyz_ref (default [] wings) (default [] fuselages)
           s_ref c_ref b_ref parsed)).
Proof.
  intros Hs Hc Hb. unfold Airplane.init, Airplane.assign_reference_values, Airplane.populate.
  destruct wings as [[|main_wing others]|], fuselages; cbn; rewrite ?Hs, ?Hc, ?Hb; done.
Qed.

(** *** What substitution leaves alone *)
Import Shape.

Lemma same_shape_refl (h : heap) : same_shape h h.
Proof. intros l. destruct (h !! l) as [[attrs| |]|]; eauto. Qed.

Lemma same_shape_trans (h1 h2 h3 : heap) :
  same_shape h1 h2 -> same_shape h2 h3 -> same_shape h1 h3.
Proof.
  intros H12 H23 l. specialize (H12 l). specialize (H23 l).
  destruct (h1 !! l) as [[attrs| |]|].
  - destruct H12 as (attrs2 & H2 & Hk2). rewrite H2 in H23.
    destruct H23 as (attrs3 & H3 & Hk3). exists attrs3. split; [done | congruence].
  - by rewrite H12 in H23.
  - by rewrite H12 in H23.
  - by rewrite H12 in H23.
Qed.

Lemma same_shape_setattr (h : heap) l k v :
  is_Some (attr h l k) -> same_shape h (setattr l k v h).
Proof.
  intros [v0 Hv0] l'. unfold attr, dict_of in Hv0. unfold setattr.
  destruct (h !! l) as [[attrs| |]|] eqn:Hl; try done. cbn in Hv0.
  destruct (decide (l' = l)) as [->|Hne].
  - rewrite Hl, lookup_insert_eq. eexists. split; [done|].
    apply dict_keys_set_present, dict_get_is_Some. eauto.
  - rewrite lookup_insert_ne by done. destruct (h !! l') as [[attrs'| |]|]; eauto.
Qed.

Lemma same_shape_attr (h h' : heap) l k :
  same_shape h h' -> is_Some (attr h l k) -> is_Some (attr h' l k).
Proof.
  intros Hs Hk. specialize (Hs l). unfold attr, dict_of in *.
  destruct (h !! l) as [[attrs| |]|]; try by destruct Hk.
  destruct Hs as (attrs' & -> & Hkeys). cbn in *.
  apply dict_get_is_Some. rewrite Hkeys. by apply dict_get_is_Some.
Qed.

Lemma shape_kept_trans {A} (h1 h2 : heap) (o : outcome heap A) :
  same_shape h1 h2 -> shape_kept h2 o -> shape_kept h1 o.
Proof. intros H12. destruct o; cbn; eauto using same_shape_trans. Qed.

Section ShapeFacts.
Variable sol : solution.

Section Level.
Variable method : loc -> heap -> outcome heap pyval.
Hypothesis Hmethod : forall l h, shape_kept h (method l h).

Lemma convert_shape v : forall h, shape_kept h (convert sol method v h).
Proof.
  induction v as [|b|n|x|s|e|items IH|items IH|l] using pyval_nested_ind; intros h;
    cbn [convert]; destruct (sol _) as [v'|err]; cbn;
    try apply same_shape_refl; destruct err; cbn; try apply same_shape_refl.
  - match goal with |- context [?f items h] => set (each := f) end.
    enough (Heach : forall h, shape_kept h (each items h)).
    { specialize (Heach h). by destruct (each items h). }
    clear h. induction IH as [|i items Hi _ IH]; intros h; cbn; [apply same_shape_refl|].
    specialize (Hi h). destruct (convert sol method i h) as [v1 h1|e1 h1|]; cbn in *; try done.
    specialize (IH h1). destruct (each items h1) as [vs h2|e2 h2|]; cbn in *;
      eauto using same_shape_trans.
  - match goal with |- context [?f items h] => set (each := f) end.
    enough (Heach : forall h, shape_kept h (each items h)).
    { specialize (Heach h). by destruct (each items h). }
    clear h. induction IH as [|i items Hi _ IH]; intros h; cbn; [apply same_shape_refl|].
    specialize (Hi h). destruct (convert sol method i h) as [v1 h1|e1 h1|]; cbn in *; try done.
    specialize (IH h1). destruct (each items h1) as [vs h2|e2 h2|]; cbn in *;
      eauto using same_shape_trans.
  - destruct (h !! l) as [[attrs| |]|]; cbn; try apply same_shape_refl.
    specialize (Hmethod l h). destruct (method l h) as [v1 h1|e1 h1|]; cbn in *; [done| |done].
    by destruct e1.
Qed.

Lemma each_attribute_shape self names : forall h,
  shape_kept h (each_attribute sol method self names h).
Proof.
  induction names as [|name names IH]; intros h; cbn; [apply same_shape_refl|].
  destruct (attr h self name) as [v|] eqn:Hv; cbn; [|apply same_shape_refl].
  destruct (is_number v); [apply IH|].
  pose proof (convert_shape v h) as Hc.
  destruct (convert sol method v h) as [v1 h1|e1 h1|]; cbn in Hc; [| |done].
  - eapply shape_kept_trans; [|apply IH].
    eapply same_shape_trans; [exact Hc|].
    apply same_shape_setattr. eapply same_shape_attr; eauto.
  - destruct e1; cbn; try done; eapply shape_kept_trans; eauto.
Qed.
End Level.

Lemma substitute_solution_shape depth : forall self h,
  shape_kept h (substitute_solution sol depth self h).
Proof.
  induction depth as [|depth IH]; intros self h; cbn; [done|].
  destruct (dict_of h self) as [attrs|]; cbn; [|apply same_shape_refl].
  pose proof (each_attribute_shape _ IH self (Dict.keys attrs) h) as He.
  by destruct (each_attribute _ _ _ _ _).
Qed.

Lemma substitute_solution_returns_self depth self h v h' :
  substitute_solution sol depth self h = Returns v h' -> v = VRef self.
Proof.
  destruct depth; cbn; [done|]. destruct (dict_of h self); [|done].
  destruct (each_attribute _ _ _ _ _); congruence.
Qed.
End ShapeFacts.

(** X11. Whatever the solution does, and however the call ends,
    [substitute_solution] neither creates nor removes anything: every
    instance in the store is still an instance with the same attribute names
    in the same order, and every other object, the optimization environment
    among them, is exactly as it was.  This holds for the store that a
    raised exception leaves behind too.  When the call returns, it returns
    the object itself. *)
Theorem substitute_solution_keeps_shape (sol : solution) depth self (h : heap) :
  match substitute_solution sol depth self h with
  | Returns v h' => v = VRef self /\ same_shape h h'
  | Raises _ h' => same_shape h h'
  | TooDeep => True
  end.
Proof.
  pose proof (substitute_solution_shape sol depth self h) as Hs.
  destruct (substitute_solution sol depth self h) as [v h'|e h'|] eqn:Hrun; cbn in Hs; [|done..].
  split; [|done]. by apply substitute_solution_returns_self in Hrun.
Qed.

(** *** Attributes that substitution skips, and errors of the solution *)

Lemma each_attribute_skips (sol : solution) method self (h : heap) attrs :
  dict_of h self = Some attrs ->
  (forall k v, Dict.get attrs k = Some v ->
     is_number v = true \/ sol v = Raise TypeError \/ sol v = Raise AttributeError) ->
  forall names, (forall k, k ∈ names -> k ∈ Dict.keys attrs) ->
  each_attribute sol method self names h = Returns tt h.
Proof.
  intros Hself Hskip names. induction names as [|name names IH]; intros Hnames; cbn; [done|].
  assert (Hname : is_Some (Dict.get attrs name)).
  { apply dict_get_is_Some, Hnames, elem_of_cons. auto. }
  destruct Hname as [v Hv]. unfold attr. rewrite Hself. cbn. rewrite Hv.
  assert (IH' : each_attribute sol method self names h = Returns tt h).
  { apply IH. intros k Hk. apply Hnames, elem_of_cons. auto. }
  destruct (is_number v) eqn:Hnum; [done|].
  destruct (Hskip name v Hv) as [Hn|[He|He]]; [congruence | |];
    destruct v; cbn in *; rewrite ?He; try done.
Qed.

(** X12. Attributes that are plain numbers are skipped before the solution is
    asked anything, and a [TypeError] or [AttributeError] that
    [sol.value] raises for an attribute is swallowed, the attribute keeping
    its value.  So for an object each of whose attributes is a bool, an int
    or a float, or makes the solution raise one of these two errors,
    [substitute_solution] returns the object with the store unchanged,
    symbolic values included: nothing is reported. *)
Theorem substitute_solution_swallows_type_errors (sol : solution) depth self (h : heap) attrs :
  dict_of h self = Some attrs ->
  (forall k v, Dict.get attrs k = Some v ->
     is_number v = true \/ sol v = Raise TypeError \/ sol v = Raise AttributeError) ->
  substitute_solution sol (S depth) self h = Returns (VRef self) h.
Proof.
  intros Hself Hskip. cbn. rewrite Hself.
  by rewrite (each_attribute_skips sol _ self h attrs).
Qed.

Lemma dict_get_middle {V} (done rest : Dict.t V) k (v : V) :
  k ∉ Dict.keys done -> Dict.get (done ++ (k, v) :: rest) k = Some v.
Proof.
  induction done as [|[k' v'] done IH]; cbn; intros Hk.
  - by rewrite decide_True.
  - apply not_elem_of_cons in Hk as [Hne Hk]. rewrite decide_False by done. by apply IH.
Qed.

Lemma dict_set_middle {V} (done rest : Dict.t V) k (v v' : V) :
  k ∉ Dict.keys done ->
  Dict.set (done ++ (k, v) :: rest) k v' = done ++ (k, v') :: rest.
Proof.
  induction done as [|[k0 v0] done IH]; cbn; intros Hk.
  - by rewrite decide_True.
  - apply not_elem_of_cons in Hk as [Hne Hk]. rewrite decide_False by done.
    by rewrite IH.
Qed.

Lemma solved_Ok (sol : solution) v v' : sol v = Ok v' -> solved sol v = v'.
Proof. intros H. destruct v; cbn; by rewrite H. Qed.

Lemma each_attribute_stops (sol : solution) method self k v post e :
  is_number v = false -> sol v = Raise e ->
  e <> NotImplementedError -> e <> TypeError -> e <> AttributeError ->
  forall pre done (h : heap),
    h !! self = Some (Instance (done ++ pre ++ (k, v) :: post)) ->
    NoDup (Dict.keys (done ++ pre ++ (k, v) :: post)) ->
    (forall k' v', (k', v') ∈ pre -> is_number v' = true \/ exists x, sol v' = Ok x) ->
    each_attribute sol method self (Dict.keys (pre ++ (k, v) :: post)) h
    = Raises e (<[self := Instance (done ++ solved_dict sol pre ++ (k, v) :: post)]> h).
Proof.
  intros Hnum Hv He1 He2 He3. induction pre as [|[k0 v0] pre IH]; intros done h Hself Hnd Hpre.
  - cbn in *. assert (Hk : k ∉ Dict.keys done).
    { unfold Dict.keys in *. rewrite fmap_app in Hnd. apply NoDup_app in Hnd as (_ & Hdisj & _).
      intros Hin. apply (Hdisj k Hin). cbn. apply elem_of_cons. auto. }
    unfold attr, dict_of. rewrite Hself. cbn. rewrite dict_get_middle by done.
    rewrite Hnum. rewrite (insert_id h self) by done.
    destruct v; cbn in *; rewrite Hv; by destruct e.
  - cbn [app Dict.keys fmap list_fmap fst] in *. cbn [each_attribute].
    assert (Hk0 : k0 ∉ Dict.keys done).
    { unfold Dict.keys in *. rewrite fmap_app in Hnd. apply NoDup_app in Hnd as (_ & Hdisj & _).
      intros Hin. apply (Hdisj k0 Hin). cbn. apply elem_of_cons. auto. }
    unfold attr at 1, dict_of. rewrite Hself. cbn [mbind option_bind].
    rewrite dict_get_middle by done.
    assert (Hassoc : forall x, done ++ (k0, x) :: pre ++ (k, v) :: post
                     = (done ++ [(k0, x)]) ++ pre ++ (k, v) :: post).
    { intros x. by rewrite <- app_assoc. }
    destruct (Hpre k0 v0) as [Hn0 | [x Hx]]; [apply elem_of_cons; auto | |].
    + rewrite Hn0. fold (Dict.keys (pre ++ (k, v) :: post)).
      rewrite (IH (done ++ [(k0, v0)]) h).
      * do 2 f_equal. f_equal. cbn. unfold solved_attr. rewrite Hn0. by rewrite <- app_assoc.
      * by rewrite <- Hassoc.
      * rewrite <- Hassoc. exact Hnd.
      * intros k' v' Hin. apply (Hpre k' v'), elem_of_cons. auto.
    + destruct (is_number v0) eqn:Hn0.
      * fold (Dict.keys (pre ++ (k, v) :: post)).
        rewrite (IH (done ++ [(k0, v0)]) h).
        -- do 2 f_equal. f_equal. cbn. unfold solved_attr. rewrite Hn0. by rewrite <- app_assoc.
        -- by rewrite <- Hassoc.
        -- rewrite <- Hassoc. exact Hnd.
        -- intros k' v' Hin. apply (Hpre k' v'), elem_of_cons. auto.
      * assert (Hconv : convert sol method v0 h = Returns x h).
        { destruct v0; cbn; by rewrite Hx. }
        rewrite Hconv. unfold setattr. rewrite Hself. rewrite dict_set_middle by done.
        fold (Dict.keys (pre ++ (k, v) :: post)).
        rewrite (IH (done ++ [(k0, x)])).
        -- rewrite insert_insert_eq. do 2 f_equal. f_equal. cbn. unfold solved_attr.
           rewrite Hn0, (solved_Ok sol v0 x) by done. by rewrite <- app_assoc.
        -- rewrite lookup_insert_eq. by rewrite <- Hassoc.
        -- rewrite <- Hassoc. unfold Dict.keys in *.
           rewrite fmap_app in *. cbn in *. exact Hnd.
        -- intros k' v' Hin. apply (Hpre k' v'), elem_of_cons. auto.
Qed.

(** X13. [substitute_solution] is not all or nothing.  When [sol.value]
    raises for an attribute an exception that is none of
    [NotImplementedError], [TypeError] and [AttributeError], the call raises
    that exception, and the attributes before it, in the order of
    [__dict__], have already been replaced by their values: the object is
    left half substituted, the attribute that failed and those after it
    being as they were. *)
Theorem substitute_solution_stops_at_first_error (sol : solution) depth self (h : heap)
    pre k v post e :
  dict_of h self = Some (pre ++ (k, v) :: post) ->
  NoDup (Dict.keys (pre ++ (k, v) :: post)) ->
  (forall k' v', (k', v') ∈ pre -> is_number v' = true \/ exists x, sol v' = Ok x) ->
  is_number v = false -> sol v = Raise e ->
  e <> NotImplementedError -> e <> TypeError -> e <> AttributeError ->
  substitute_solution sol (S depth) self h
  = Raises e (<[self := Instance (solved_dict sol pre ++ (k, v) :: post)]> h).
Proof.
  intros Hself Hnd Hpre Hnum Hv He1 He2 He3. cbn. rewrite Hself.
  assert (Hl : h !! self = Some (Instance ([] ++ pre ++ (k, v) :: post))).
  { unfold dict_of in Hself. destruct (h !! self) as [[attrs| |]|]; try done.
    by injection Hself as ->. }
  by rewrite (each_attribute_stops sol _ self k v post e Hnum Hv He1 He2 He3 pre [] h Hl Hnd Hpre).
Qed.

(** X14. Substitution changes objects that hold nothing symbolic: an
    attribute that is a tuple holds a list afterwards, with the solved values
    of the elements of the tuple, also when every element is a number.
    (Under the conditions of well-formed stores and solutions that evaluate
    symbolic expressions only.) *)
Theorem substitute_solution_turns_tuples_into_lists (sol : solution) rank depth (h : heap)
    self attrs k items :
  evaluates sol -> distinct_keys h -> ranked rank h -> rank self < depth ->
  dict_of h self = Some attrs ->
  Dict.get attrs k = Some (VTuple items) ->
  exists h',
    substitute_solution sol depth self h = Returns (VRef self) h' /\
    attr h' self k = Some (VList (List.map (solved sol) items)) /\
    attr h' self k <> attr h self k.
Proof.
  intros Hsol Hdistinct Hranked Hdepth Hself Hk.
  destruct (substitute_solution_spec sol rank depth h self attrs)
    as (h' & Hrun & Hdict & _); try done.
  assert (Hafter : attr h' self k = Some (VList (List.map (solved sol) items))).
  { unfold attr. rewrite Hdict. cbn. rewrite dict_get_solved_dict, Hk. cbn.
    by rewrite (Hsol (VTuple items)). }
  exists h'. split_and!; [done | done |].
  rewrite Hafter. unfold attr. rewrite Hself. cbn. by rewrite Hk.
Qed.

(** *** Errors on the way through [init_wrapped] *)

(** X15. Errors leave a standalone constructor as they are.  An exception
    of the body of [__init__] leaves [init_wrapped] with the store that the
    body left, and nothing is solved.  When the body has created a decision
    variable, an exception of [solve] leaves the constructor after the one
    call to [solve]: [substitute_solution] is not called, and the object
    keeps the symbolic values that the body gave it. *)
Theorem init_wrapped_standalone_propagates_errors
    (solve : opti_state -> res solution) (x_shape : opti_state -> nat * nat) depth
    (init_method : loc -> heap -> outcome heap unit) self (w : world) env h0 h1 e :
  alloc (Environment empty_opti) (store w) = (env, h0) ->
  (init_method self (set_opti_provided self (VBool false) (set_opti self (VRef env) h0))
   = Raises e h1 ->
   init_wrapped solve x_shape depth init_method self None w = Raises e (World h1 (calls w))) /\
  (forall p st,
     init_method self (set_opti_provided self (VBool false) (set_opti self (VRef env) h0))
     = Returns tt h1 ->
     opti_provided self h1 = Ok p -> truthy p = false ->
     opti self h1 = Ok (VRef env) ->
     h1 !! env = Some (Environment st) ->
     x_shape st <> (0, 1) ->
     solve st = Raise e ->
     init_wrapped solve x_shape depth init_method self None w
     = Raises e (World h1 (calls w ++ [CallSolve env]))).
Proof.
  intros Halloc. split.
  - intros Hbody. unfold init_wrapped. rewrite Halloc. by rewrite Hbody.
  - intros p st Hbody Hflag Hp Hopti Henv Hshape Hsolve.
    rewrite (init_wrapped_standalone_unfold solve x_shape depth init_method self w env h0 h1 p st)
      by done.
    rewrite decide_False by done. unfold solve_and_substitute. by rewrite Hsolve.
Qed.

(** *** The setters of [opti] and [opti_provided] *)

(** X16. The two properties are stored apart: assigning [opti] changes
    neither [opti_provided] nor any other attribute of any object, and the
    other way round; a second assignment replaces the first. *)
Theorem opti_setters_are_independent (h : heap) self v v' :
  opti_provided self (set_opti self v h) = opti_provided self h /\
  opti self (set_opti_provided self v h) = opti self h /\
  (forall l k, (l, k) <> (self, "_opti") -> attr (set_opti self v h) l k = attr h l k) /\
  (forall l k, (l, k) <> (self, "_opti_provided") ->
     attr (set_opti_provided self v h) l k = attr h l k) /\
  set_opti self v' (set_opti self v h) = set_opti self v' h /\
  set_opti_provided self v' (set_opti_provided self v h) = set_opti_provided self v' h.
Proof.
  unfold opti, opti_provided, set_opti, set_opti_provided. split_and!.
  - by rewrite attr_setattr_ne.
  - by rewrite attr_setattr_ne.
  - intros l k Hne. by apply attr_setattr_ne.
  - intros l k Hne. by apply attr_setattr_ne.
  - apply setattr_setattr.
  - apply setattr_setattr.
Qed.

(** *** The depth of the recursion *)

Section DepthFacts.
Variable sol : solution.

Section Level.
Variables method method' : loc -> heap -> outcome heap pyval.
Hypothesis Hmethod : forall l h, finished (method l h) -> method' l h = method l h.

Lemma convert_deeper v : forall h,
  finished (convert sol method v h) -> convert sol method' v h = convert sol method v h.
Proof.
  induction v as [|b|n|x|s|e|items IH|items IH|l] using pyval_nested_ind; intros h;
    cbn [convert]; destruct (sol _) as [v'|err]; try done; destruct err; try done.
  - match goal with |- context [?f items h] => set (each := f) end.
    match goal with |- _ -> match ?f items h with _ => _ end = _ => set (each' := f) end.
    enough (Heach : forall h, finished (each items h) -> each' items h = each items h).
    { intros Hfin. rewrite Heach; [done|]. by destruct (each items h). }
    clear h. induction IH as [|i items Hi _ IH]; intros h; cbn; [done|].
    intros Hfin. rewrite Hi by (by destruct (convert sol method i h)).
    destruct (convert sol method i h) as [v1 h1|e1 h1|]; [|done|done].
    rewrite IH; [done|]. by destruct (each items h1).
  - match goal with |- context [?f items h] => set (each := f) end.
    match goal with |- _ -> match ?f items h with _ => _ end = _ => set (each' := f) end.
    enough (Heach : forall h, finished (each items h) -> each' items h = each items h).
    { intros Hfin. rewrite Heach; [done|]. by destruct (each items h). }
    clear h. induction IH as [|i items Hi _ IH]; intros h; cbn; [done|].
    intros Hfin. rewrite Hi by (by destruct (convert sol method i h)).
    destruct (convert sol method i h) as [v1 h1|e1 h1|]; [|done|done].
    rewrite IH; [done|]. by destruct (each items h1).
  - destruct (h !! l) as [[attrs| |]|]; try done.
    intros Hfin. rewrite Hmethod; [done|]. by destruct (method l h).
Qed.

Lemma each_attribute_deeper self names : forall h,
  finished (each_attribute sol method self names h) ->
  each_attribute sol method' self names h = each_attribute sol method self names h.
Proof.
  induction names as [|name names IH]; intros h; cbn; [done|].
  destruct (attr h self name) as [v|]; [|done].
  destruct (is_number v); [apply IH|].
  intros Hfin. rewrite convert_deeper by (by destruct (convert sol method v h)).
  destruct (convert sol method v h) as [v1 h1|e1 h1|]; [by apply IH| |done].
  destruct e1; try done; by apply IH.
Qed.
End Level.

Lemma substitute_solution_deeper depth : forall depth' self h,
  depth <= depth' ->
  finished (substitute_solution sol depth self h) ->
  substitute_solution sol depth' self h = substitute_solution sol depth self h.
Proof.
  induction depth as [|depth IH]; intros depth' self h Hle; [done|].
  destruct depth' as [|depth']; [lia|]. cbn.
  destruct (dict_of h self) as [attrs|]; [|done].
  intros Hfin.
  rewrite (each_attribute_deeper (substitute_solution sol depth)
             (substitute_solution sol depth')); [done | |].
  - intros l h'. apply IH. lia.
  - by destruct (each_attribute _ _ _ _ _).
Qed.
End DepthFacts.

(** X21. The recursion limit matters only when it is exceeded: a call of
    [substitute_solution] that returns or raises within some depth of nested
    calls does exactly the same, with the same store, within any greater
    depth, for every solution. *)
Theorem substitute_solution_depth_irrelevant (sol : solution) depth depth' self (h : heap) :
  depth <= depth' ->
  substitute_solution sol depth self h <> TooDeep ->
  substitute_solution sol depth' self h = substitute_solution sol depth self h.
Proof.
  intros Hle Hfin. apply substitute_solution_deeper; [done|].
  by destruct (substitute_solution sol depth self h).
Qed.

(** X22. An object that refers to itself cannot be substituted: when an
    attribute of the object is the object itself, the attributes before it
    are plain numbers, and the solution does not evaluate objects,
    [substitute_solution] calls itself on the same object without end and
    exceeds every recursion limit. *)
Theorem substitute_solution_self_reference_never_returns (sol : solution) depth self
    (h : heap) pre k post :
  dict_of h self = Some (pre ++ (k, VRef self) :: post) ->
  NoDup (Dict.keys (pre ++ (k, VRef self) :: post)) ->
  Forall (fun kv => is_number kv.2 = true) pre ->
  sol (VRef self) = Raise NotImplementedError ->
  substitute_solution sol depth self h = TooDeep.
Proof.
  intros Hself Hnd Hpre Hsol. induction depth as [|depth IH]; [done|].
  cbn. rewrite Hself.
  enough (Hloop : forall done rest, (done ++ rest = pre)%list ->
            each_attribute sol (substitute_solution sol depth) self
              (Dict.keys (rest ++ (k, VRef self) :: post)) h = TooDeep)
    by (by rewrite (Hloop [] pre)).
  assert (Hl : h !! self = Some (Instance (pre ++ (k, VRef self) :: post))).
  { unfold dict_of in Hself. destruct (h !! self) as [[attrs| |]|]; try done.
    by injection Hself as ->. }
  intros done rest. revert done. induction rest as [|[k0 v0] rest IHrest]; intros done Hsplit.
  - rewrite app_nil_r in Hsplit. subst done. cbn. unfold attr. rewrite Hself. cbn.
    rewrite dict_get_middle.
    + cbn. rewrite Hsol, Hl. by rewrite IH.
    + unfold Dict.keys in *. rewrite fmap_app in Hnd. apply NoDup_app in Hnd as (_ & Hdisj & _).
      intros Hin. apply (Hdisj k Hin). cbn. apply elem_of_cons. auto.
  - cbn. unfold attr. rewrite Hself. cbn. subst pre.
    rewrite <- app_assoc. cbn. rewrite dict_get_middle.
    + apply Forall_app in Hpre as [_ Hrest]. apply Forall_cons in Hrest as [Hnum _].
      cbn in Hnum. rewrite Hnum. apply (IHrest (done ++ [(k0, v0)])).
      by rewrite <- app_assoc.
    + unfold Dict.keys in *. rewrite <- app_assoc, fmap_app in Hnd.
      apply NoDup_app in Hnd as (_ & Hdisj & _).
      intros Hin. apply (Hdisj k0 Hin). cbn. apply elem_of_cons. auto.
Qed.

(** *** Symmetry of an airplane *)
Import Geometry.

(** What [is_entirely_symmetric] asks of a cross-section of a wing. *)
Lemma xsec_check_true wing xsec :
  xsec_check wing xsec = Ok true <->
  (control_surface_is_symmetric xsec = true \/
   is_zero (control_surface_deflection xsec) = true) /\
  (symmetric wing = false ->
     is_zero (xyz_le xsec).1.2 = true /\
     (is_zero (twist xsec) = true \/
      is_zero (twist_axis xsec).1.1 = true /\ is_zero (twist_axis xsec).2 = true) /\
     (exists cl, CL_function (airfoil xsec) 0 1e6 0 0 = Ok cl /\ is_zero cl = true) /\
     (exists cm, Cm_function (airfoil xsec) 0 1e6 0 0 = Ok cm /\ is_zero cm = true)).
Proof.
  unfold xsec_check. split.
  - intros H.
    destruct (control_surface_is_symmetric xsec) eqn:Hcs,
             (is_zero (control_surface_deflection xsec)) eqn:Hdefl; cbn -[is_zero] in H; try done;
      (split; [auto|]); intros Hsym; rewrite Hsym in H; cbn -[is_zero] in H;
      (destruct (is_zero (xyz_le xsec).1.2); cbn -[is_zero] in H; [|done]);
      (destruct (is_zero (twist xsec)), (is_zero (twist_axis xsec).1.1),
                (is_zero (twist_axis xsec).2); cbn -[is_zero] in H; try done);
      (destruct (CL_function (airfoil xsec) 0 1e6 0 0) as [cl|]; cbn -[is_zero] in H; [|done]);
      (destruct (is_zero cl) eqn:Hcl; cbn -[is_zero] in H; [|done]);
      (destruct (Cm_function (airfoil xsec) 0 1e6 0 0) as [cm|]; cbn -[is_zero] in H; [|done]);
      (destruct (is_zero cm) eqn:Hcm; cbn -[is_zero] in H; [|done]);
      split_and!; eauto.
  - intros [Hcs Hrest].
    replace (control_surface_is_symmetric xsec
             || is_zero (control_surface_deflection xsec)) with true
      by (destruct Hcs as [-> | ->]; [done | by rewrite orb_true_r]).
    simpl. destruct (symmetric wing); simpl; [done|].
    destruct (Hrest eq_refl) as (-> & Htw & (cl & -> & Hcl) & (cm & -> & Hcm)). simpl.
    replace (negb (is_zero (twist xsec))
             && negb (is_zero (twist_axis xsec).1.1 && is_zero (twist_axis xsec).2))
      with false
      by (destruct Htw as [-> | [-> ->]]; [done | by rewrite andb_false_r]).
    simpl. rewrite Hcl. simpl. by rewrite Hcm.
Qed.

Lemma xsecs_loop_true wing xsecs :
  xsecs_loop wing xsecs = Ok true <-> Forall (fun xsec => xsec_check wing xsec = Ok true) xsecs.
Proof.
  induction xsecs as [|xsec xsecs IH]; cbn.
  - split; [constructor | done].
  - rewrite Forall_cons, <- IH.
    destruct (xsec_check wing xsec) as [[|]|]; cbn; split; try done; try tauto.
    all: by intros [[=] _].
Qed.

Lemma wings_loop_true wings :
  wings_loop wings = Ok true <->
  Forall (fun wing => wing_is_entirely_symmetric wing = Ok true /\
                      Forall (fun xsec => xsec_check wing xsec = Ok true) (xsecs wing)) wings.
Proof.
  induction wings as [|wing wings IH]; cbn.
  - split; [constructor | done].
  - rewrite Forall_cons, <- IH, <- xsecs_loop_true.
    destruct (wing_is_entirely_symmetric wing) as [[|]|]; cbn;
      [| split; [done | by intros [[[=] _] _]] | split; [done | by intros [[[=] _] _]] ].
    destruct (xsecs_loop wing (xsecs wing)) as [[|]|]; cbn; split; try done; try tauto.
    all: by intros [[_ [=]] _].
Qed.
Import GeometrySpec.

Lemma wings_loop_passes wings :
  wings_loop wings = Ok true <-> forall wing, wing ∈ wings -> wing_passes wing.
Proof.
  rewrite wings_loop_true, Forall_forall. unfold wing_passes.
  split; intros H wing Hin; destruct (H wing Hin) as [Hw Hx]; (split; [done|]).
  - intros xsec Hxsec. apply (proj1 (Forall_forall _ _) Hx) in Hxsec.
    by apply xsec_check_true in Hxsec.
  - apply Forall_forall. intros xsec Hxsec. apply xsec_check_true. by apply Hx.
Qed.

(** X17. [is_entirely_symmetric] answers [True] exactly when every wing
    reports itself symmetric and every cross-section of every wing has a
    control surface that is symmetric or not deflected and, on a wing that is
    not mirrored ([symmetric] false), lies in the plane of symmetry with an
    airfoil that has neither lift nor moment at zero angle of attack.  In
    particular an airplane without wings is symmetric, and the fuselages
    play no role. *)
Theorem is_entirely_symmetric_iff {Fuselage : Type}
    (self : @Airplane.airplane Wing Fuselage) :
  is_entirely_symmetric self = Ok true <->
  forall wing, wing ∈ Airplane.wings self -> wing_passes wing.
Proof. apply wings_loop_passes. Qed.

(** X18. The answer [True] of [is_entirely_symmetric] does not depend on the
    order of the wings, although the loop returns at the first wing that
    fails; and an airplane is symmetric exactly when the airplanes made of
    a part of its wings and of the rest are. *)
Theorem is_entirely_symmetric_order {Fuselage : Type}
    (self other : @Airplane.airplane Wing Fuselage) :
  (Airplane.wings self ≡ₚ Airplane.wings other ->
     is_entirely_symmetric self = Ok true <-> is_entirely_symmetric other = Ok true) /\
  (forall rest : @Airplane.airplane Wing Fuselage,
     Airplane.wings self = (Airplane.wings other ++ Airplane.wings rest)%list ->
     is_entirely_symmetric self = Ok true <->
     is_entirely_symmetric other = Ok true /\ is_entirely_symmetric rest = Ok true).
Proof.
  unfold is_entirely_symmetric. split.
  - intros Hperm. rewrite !wings_loop_passes.
    split; intros H wing Hin; apply H; [by rewrite Hperm | by rewrite <- Hperm].
  - intros rest ->. rewrite !wings_loop_passes. setoid_rewrite elem_of_app.
    split; [intros H; split; intros wing Hin; apply H; auto|].
    intros [H1 H2] wing [Hin|Hin]; auto.
Qed.

(** X19. On mirrored wings ([symmetric] true) only the control surfaces
    count: when every wing is mirrored and its own [is_entirely_symmetric]
    returns, the answer is whether every wing reports itself symmetric and
    every control surface is symmetric or not deflected.  The position, the
    twist and the airfoil of the cross-sections are not looked at, and the
    functions of the airfoil are not called. *)
Theorem is_entirely_symmetric_mirrored_wings {Fuselage : Type}
    (self : @Airplane.airplane Wing Fuselage) :
  Forall (fun wing => symmetric wing = true /\
                      exists b, wing_is_entirely_symmetric wing = Ok b)
         (Airplane.wings self) ->
  is_entirely_symmetric self
  = Ok (forallb (fun wing =>
          match wing_is_entirely_symmetric wing with Ok b => b | Raise _ => false end
          && forallb (fun xsec => control_surface_is_symmetric xsec
                                  || is_zero (control_surface_deflection xsec))
                     (xsecs wing))
          (Airplane.wings self)).
Proof.
  unfold is_entirely_symmetric. induction 1 as [|wing wings [Hsym [b Hb]] _ IH]; [done|].
  cbn [wings_loop forallb]. rewrite Hb. simpl. destruct b; simpl; [|done].
  assert (Hx : forall xs, xsecs_loop wing xs
           = Ok (forallb (fun xsec => control_surface_is_symmetric xsec
                                      || is_zero (control_surface_deflection xsec)) xs)).
  { induction xs as [|xsec xs IHxs]; [done|]. cbn [xsecs_loop forallb].
    unfold xsec_check. rewrite Hsym.
    destruct (control_surface_is_symmetric xsec
              || is_zero (control_surface_deflection xsec)); simpl; [apply IHxs | done]. }
  rewrite Hx. simpl. by destruct (forallb _ (xsecs wing)).
Qed.

(** *** The aerodynamic center *)

Lemma comprehension_raises {A B : Type} (f : A -> res B) pre x post e :
  Forall (fun x' => exists y, f x' = Ok y) pre -> f x = Raise e ->
  comprehension f (pre ++ x :: post) = Raise e.
Proof.
  intros Hpre Hx. induction Hpre as [|x' pre [y Hy] _ IH]; cbn.
  - by rewrite Hx.
  - by rewrite Hy, IH.
Qed.

(** X20. An airplane without wings has no aerodynamic center:
    [aerodynamic_center] divides the empty sum of the products by the empty
    sum of the areas, both the integer 0, and raises [ZeroDivisionError].
    The areas of all wings are asked for before any aerodynamic center: an
    exception of the first wing whose [area] raises leaves the method,
    whatever the [aerodynamic_center] of any wing would do.  The
    [chord_fraction] argument is not used: the result is the same for every
    value of it. *)
Theorem aerodynamic_center_without_wings {Fuselage : Type}
    (self : @Airplane.airplane Wing Fuselage) (chord_fraction : float) :
  (Airplane.wings self = [] ->
     aerodynamic_center self chord_fraction = Raise ZeroDivisionError) /\
  (forall pre wing post e,
     Airplane.wings self = (pre ++ wing :: post)%list ->
     Forall (fun wing' => exists a, area_projected wing' = Ok a) pre ->
     area_projected wing = Raise e ->
     aerodynamic_center self chord_fraction = Raise e) /\
  (forall other_fraction,
     aerodynamic_center self other_fraction = aerodynamic_center self chord_fraction).
Proof.
  split_and!; [| |done].
  - intros H. unfold aerodynamic_center. by rewrite H.
  - intros pre wing post e Hwings Hpre Hwing. unfold aerodynamic_center.
    rewrite Hwings.
    by rewrite (comprehension_raises area_projected pre wing post e Hpre Hwing).
Qed.

(** *** Checking that a store is well formed *)
Lemma distinct_keys_check (h : heap) :
  map_Forall (fun _ o => match o with
                         | Instance attrs => NoDup (Dict.keys attrs)
                         | _ => True
                         end) h ->
  distinct_keys h.
Proof.
  intros Hall l attrs Hl. unfold dict_of in Hl.
  destruct (h !! l) as [[attrs'| |]|] eqn:Hlook; try done.
  injection Hl as ->. exact (Hall l _ Hlook).
Qed.

Lemma ranked_check (rank : loc -> nat) (h : heap) :
  map_Forall (fun l o => match o with
                         | Instance attrs =>
                             Forall (fun l' => is_Some (dict_of h l') -> rank l' < rank l)
                                    (refs_of_dict attrs)
                         | _ => True
                         end) h ->
  ranked rank h.
Proof.
  intros Hall l attrs l' Hl Hin. unfold dict_of in Hl.
  destruct (h !! l) as [[attrs'| |]|] eqn:Hlook; try done.
  injection Hl as ->. pose proof (Hall l _ Hlook) as Hf. cbn in Hf.
  by apply (proj1 (Forall_forall _ _) Hf).
Qed.

Lemma value_evaluates : evaluates MyAnalysis.value.
Proof. intros [| | | | |[|[|e]]| | |]; cbn; eauto. Qed.

Create HintDb stores.
#[local] Hint Unfold Examples.plane_store Examples.after_init : stores.

Ltac each_object :=
  autounfold with stores;
  repeat first [ apply map_Forall_insert_2 | apply map_Forall_singleton
               | apply map_Forall_empty ].

Ltac check_distinct_keys :=
  apply distinct_keys_check; each_object; cbn;
  first [ exact I | compute_done ].

Ltac check_ranked :=
  apply ranked_check; each_object; cbn; try exact I;
  repeat constructor;
  let H := fresh in
  intros [? H]; first [ cbn; lia | vm_compute in H; discriminate H ].

(** * The statements at concrete inputs *)
Import Examples.

(** The call [motor_electric_performance(rpm=100, current=3)] of the module's
    [__main__] block returns. *)
Example motor_main_call :
  exists p, motor_electric_performance 1 None (Some 3%float) (Some 100%float) None
              default_kv default_resistance default_no_load_current = Some (Ok p).
Proof. eexists. vm_compute. reflexivity. Qed.

(** The combination rpm and torque needs the second pass of the loop. *)
Example motor_rpm_torque_needs_two_passes :
  motor_electric_performance 1 None None (Some 4700%float) (Some 1%float)
    default_kv default_resistance default_no_load_current = None.
Proof. vm_compute. reflexivity. Qed.

Lemma validate_returns_defaults_and_overrides_witness :
  exists d,
    validate_analysis_specific_options "Airplane" avl
      [("profile_drag_coefficient", VInt 1)] = Ok d /\
    (forall k, k ∈ Dict.keys d <-> k ∈ ["profile_drag_coefficient"]) /\
    NoDup (Dict.keys d) /\
    (forall k v, Dict.get [("profile_drag_coefficient", VInt 1)] k = Some v ->
       Dict.get d k = Some v) /\
    (forall k, k ∈ ["profile_drag_coefficient"] ->
       Dict.get [("profile_drag_coefficient", VInt 1)] k = None ->
       Dict.get d k = Dict.get (default_analysis_specific_options avl) k) /\
    ([("profile_drag_coefficient", VInt 1)] = [] ->
       forall opts, lookup_analysis opts avl = None ->
         get_analysis_specific_options "Airplane" opts avl = Ok d).
Proof.
  apply (proj1 (validate_returns_defaults_and_overrides "Airplane" avl
                  [("profile_drag_coefficient", VInt 1)] ["profile_drag_coefficient"])).
  - split; [reflexivity|]. intros k Hk. apply list_elem_of_singleton in Hk as ->.
    cbn. eauto.
  - compute_done.
  - intros k Hk. exact Hk.
Defined.

(** C8 as stated fails: for a supplied key that is not declared, and for a
    class for which the analysis declares nothing, no dictionary is
    returned, with an empty user dictionary either. *)
Lemma validate_returns_no_dictionary :
  validate_analysis_specific_options "Airplane" avl [("bogus", VInt 1)]
  = Raise (ValueError (OptionError "bogus" "Airplane" "AVL" ["profile_drag_coefficient"])) /\
  validate_analysis_specific_options "Airplane" neuralfoil [] = Raise (KeyError "Airplane").
Proof. split; reflexivity. Qed.

Lemma airplane_init_checks_options_witness :
  ((exists an user k, (an, user) ∈ [(avl, [("bogus", VInt 1)])] /\
      k ∈ Dict.keys user /\ ~ valid_option an "Airplane" k) ->
   exists an user k keys valid,
     (an, user) ∈ [(avl, [("bogus", VInt 1)])] /\ k ∈ Dict.keys user /\
     Dict.get (option_keys an) "Airplane" = Some keys /\ (k ∉ keys) /\
     (forall k', k' ∈ valid <-> k' ∈ keys) /\
     Airplane.init wing_area wing_mac wing_span "Untitled" Airplane.default_xyz_ref
       None (None : option (list unit)) VNone VNone VNone [(avl, [("bogus", VInt 1)])]
     = Raise (ValueError (OptionError k "Airplane" (analysis_name an) valid))) /\
  ((forall an user k, (an, user) ∈ [(avl, [("bogus", VInt 1)])] ->
      k ∈ Dict.keys user -> valid_option an "Airplane" k) ->
   exists plane,
     Airplane.init wing_area wing_mac wing_span "Untitled" Airplane.default_xyz_ref
       None (None : option (list unit)) VNone VNone VNone [(avl, [("bogus", VInt 1)])]
     = Ok plane).
Proof.
  apply (proj1 (airplane_init_checks_options wing_area wing_mac wing_span "Untitled"
                  Airplane.default_xyz_ref None None VNone VNone VNone
                  [(avl, [("bogus", VInt 1)])] (VNone, VNone, VNone) eq_refl)).
  intros an user Hin. apply list_elem_of_singleton in Hin. injection Hin as -> ->.
  exists ["profile_drag_coefficient"]. split; [reflexivity|].
  intros k Hk. apply list_elem_of_singleton in Hk as ->. cbn. eauto.
Defined.

(** C5 as stated fails: a key supplied for an analysis that has no options
    for airplanes is not a valid option, and the constructor fails with a
    [KeyError] that lists no valid option. *)
Lemma airplane_init_undeclared_analysis_raises_KeyError :
  ~ valid_option neuralfoil "Airplane" "model_size" /\
  Airplane.init wing_area wing_mac wing_span "Untitled" Airplane.default_xyz_ref
    None (None : option (list unit)) VNone VNone VNone [(neuralfoil, [("model_size", VInt 5)])]
  = Raise (KeyError "Airplane").
Proof.
  split; [|reflexivity]. intros (keys & Hkeys & _). discriminate Hkeys.
Qed.

(** The message that the bogus option produces. *)
Example airplane_init_bogus_option :
  Airplane.init wing_area wing_mac wing_span "Untitled" Airplane.default_xyz_ref
    None (None : option (list unit)) VNone VNone VNone [(avl, [("bogus", VInt 1)])]
  = Raise (ValueError (OptionError "bogus" "Airplane" "AVL" ["profile_drag_coefficient"])).
Proof. reflexivity. Qed.

Lemma airplane_init_reference_values_witness :
  Airplane.init wing_area wing_mac wing_span "Untitled" Airplane.default_xyz_ref
    (Some [(2, 1, 4)%float; (9, 9, 9)%float]) (None : option (list unit))
    VNone (VFloat 3) VNone Airplane.default_analysis_specific_options
  = Ok (Airplane.Build "Untitled" Airplane.default_xyz_ref
          [(2, 1, 4)%float; (9, 9, 9)%float] []
          (VFloat 2) (VFloat 3) (VFloat 4) []).
Proof.
  exact (proj2 (proj2 (airplane_init_reference_values wing_area wing_mac wing_span
                         "Untitled" Airplane.default_xyz_ref None))
           (2, 1, 4)%float [(9, 9, 9)%float] VNone (VFloat 3) VNone
           (VFloat 2) (VFloat 1) (VFloat 4) eq_refl eq_refl eq_refl).
Defined.

Lemma substitute_solution_in_place_witness :
  exists h',
    substitute_solution MyAnalysis.value 2 0 plane_store = Returns (VRef 0) h' /\
    dict_of h' 0
    = Some (solved_dict MyAnalysis.value
              [("alpha", VSym 0); ("n", VInt 3); ("chords", VTuple [VSym 1; VFloat 2]);
               ("wing", VRef 1); ("name", VStr "plane")]) /\
    (forall l attrs_l, l ∈ owned 2 plane_store 0 -> dict_of plane_store l = Some attrs_l ->
       dict_of h' l = Some (solved_dict MyAnalysis.value attrs_l)) /\
    (forall l, l ∉ owned 2 plane_store 0 -> h' !! l = plane_store !! l) /\
    (forall l k v, attr plane_store l k = Some v -> is_number v = true ->
       attr h' l k = Some v) /\
    (forall l k v, l ∈ owned 2 plane_store 0 -> attr h' l k = Some v ->
       sym_free v = true) /\
    substitute_solution MyAnalysis.value 2 0 h' = Returns (VRef 0) h'.
Proof.
  apply (substitute_solution_in_place MyAnalysis.value plane_rank 2 plane_store 0).
  - exact value_evaluates.
  - check_distinct_keys.
  - check_ranked.
  - cbn. lia.
  - reflexivity.
Defined.

(** What the example store looks like afterwards: the tuple has become a
    list, the wing has been solved in place, and the number is untouched. *)
Example substitute_solution_plane :
  exists h',
    substitute_solution MyAnalysis.value 2 0 plane_store = Returns (VRef 0) h' /\
    dict_of h' 0 = Some [("alpha", VFloat 1); ("n", VInt 3);
                         ("chords", VList [VFloat 1; VFloat 2]);
                         ("wing", VRef 1); ("name", VStr "plane")] /\
    dict_of h' 1 = Some [("twist", VList [VFloat 1; VRef 2]); ("symmetric", VBool true)].
Proof. eexists. split_and!; vm_compute; reflexivity. Qed.

(** An object that refers to itself exceeds any depth. *)
Example substitute_solution_cycle :
  substitute_solution MyAnalysis.value 50 0 {[0 := Instance [("parent", VRef 0)]]}
  = TooDeep.
Proof. vm_compute. reflexivity. Qed.

Lemma opti_properties_need_initialization_witness :
  opti 0 (store fresh_analysis) = Raise ImplicitAnalysisInitError /\
  opti_provided 0 (store fresh_analysis) = Raise ImplicitAnalysisInitError /\
  opti 0 (after_init false) = Ok (VRef 1) /\
  opti_provided 0 (after_init false) = Ok (VBool false).
Proof.
  destruct (opti_properties_need_initialization (store fresh_analysis) 0)
    as (Hopti & Hprovided & _).
  destruct (opti_properties_need_initialization (after_init false) 0)
    as (_ & _ & Hopti' & Hprovided' & _).
  split_and!.
  - apply Hopti. reflexivity.
  - apply Hprovided. reflexivity.
  - apply Hopti'. reflexivity.
  - apply Hprovided'. reflexivity.
Defined.






(** Both ways of running [MyAnalysis] end with [a = b = 1]. *)
Example my_analysis_both_ways :
  (exists w, init_wrapped MyAnalysis.solve MyAnalysis.x_shape 5 MyAnalysis.init_method 0 None fresh_analysis
             = Returns tt w /\
             attr (store w) 0 "a" = Some (VFloat 1) /\
             attr (store w) 0 "b" = Some (VFloat 1) /\
             opti_provided 0 (store w) = Ok (VBool false)) /\
  (exists w, supplied_then_solved MyAnalysis.solve MyAnalysis.x_shape 5 MyAnalysis.init_method 0 fresh_analysis
             = Returns tt w /\
             attr (store w) 0 "a" = Some (VFloat 1) /\
             attr (store w) 0 "b" = Some (VFloat 1) /\
             opti_provided 0 (store w) = Ok (VBool true)).
Proof. split; eexists; split_and!; vm_compute; reflexivity. Qed.

(** C4 as stated fails on an object that refers to itself, which no depth of
    recursion exhausts, and for a solution that evaluates lists of numbers,
    where the second application turns the list [[1.0]] into [1.0]. *)
Lemma substitute_solution_not_for_every_object_and_solution :
  (~ exists depth h',
       substitute_solution MyAnalysis.value depth 0 {[0 := Instance [("parent", VRef 0)]]}
       = Returns (VRef 0) h') /\
  (exists h1 h2,
     substitute_solution MyAnalysis.array_value 1 0 {[0 := Instance [("xs", VList [VSym 0])]]}
     = Returns (VRef 0) h1 /\
     substitute_solution MyAnalysis.array_value 1 0 h1 = Returns (VRef 0) h2 /\
     attr h1 0 "xs" = Some (VList [VFloat 1]) /\
     attr h2 0 "xs" = Some (VFloat 1)).
Proof.
  split.
  - intros (depth & h' & Hrun).
    assert (Hdeep : forall d,
              substitute_solution MyAnalysis.value d 0 {[0 := Instance [("parent", VRef 0)]]}
              = TooDeep).
    { induction d as [|d IH]; [done|].
      cbn [substitute_solution]. unfold dict_of. rewrite lookup_singleton_eq.
      cbn [Dict.keys fmap list_fmap fst each_attribute].
      unfold attr, dict_of. rewrite lookup_singleton_eq. cbn.
      rewrite decide_True by done. cbn.
      rewrite lookup_singleton_eq. by rewrite IH. }
    by rewrite Hdeep in Hrun.
  - eexists _, _. split_and!; vm_compute; reflexivity.
Qed.

(** * The further statements at concrete inputs *)
Import Examples MoreExamples.

Lemma validate_missing_declaration_raises_KeyError_witness :
  validate_analysis_specific_options "Airplane" incomplete [("bogus", VNone)]
  = Raise (KeyError "xtr").
Proof.
  apply (proj2 (validate_missing_declaration_raises_KeyError
                  "Airplane" incomplete [("bogus", VNone)]) ["n_crit"] "xtr" []).
  - reflexivity.
  - intros k' Hk. apply list_elem_of_singleton in Hk as ->. by eexists.
  - reflexivity.
Defined.

Lemma validate_reports_first_invalid_key_witness :
  validate_analysis_specific_options "Airplane" avl
    ([("profile_drag_coefficient", VFloat 1)] ++ ("bogus", VNone) :: [("worse", VNone)])
  = Raise (ValueError (OptionError "bogus" "Airplane" "AVL" ["profile_drag_coefficient"])).
Proof.
  apply (validate_reports_first_invalid_key "Airplane" avl ["profile_drag_coefficient"]
           [("profile_drag_coefficient", VFloat 1)] "bogus" VNone [("worse", VNone)]).
  - split; [reflexivity|]. intros k Hk. apply list_elem_of_singleton in Hk as ->. by eexists.
  - apply NoDup_singleton.
  - intros k Hk. exact Hk.
  - intros Hk. apply list_elem_of_singleton in Hk. discriminate Hk.
Defined.

Lemma parse_idempotent_witness :
  parse_analysis_specific_options "Airplane"
    [(avl, [("profile_drag_coefficient", VFloat 1)])]
  = Ok [(avl, [("profile_drag_coefficient", VFloat 1)])] /\
  [(avl, [("profile_drag_coefficient", VFloat 1)])].*1
  = [(avl, [("profile_drag_coefficient", VFloat 1)])].*1 /\
  Forall2 (fun before after =>
             validate_analysis_specific_options "Airplane" before.1 before.2 = Ok after.2 /\
             validate_analysis_specific_options "Airplane" after.1 after.2 = Ok after.2)
    [(avl, [("profile_drag_coefficient", VFloat 1)])]
    [(avl, [("profile_drag_coefficient", VFloat 1)])].
Proof.
  apply (parse_idempotent "Airplane" [(avl, [("profile_drag_coefficient", VFloat 1)])]).
  reflexivity.
Defined.

Lemma get_analysis_specific_options_after_init_witness :
  exists d,
    get_analysis_specific_options "Airplane"
      (Airplane.analysis_specific_options
         (Airplane.Build (Wing := float * float * float) (Fuselage := unit)
            "Firefly" Airplane.default_xyz_ref [] [] VNone VNone VNone [])) avl
    = Ok d /\
    (forall k, k ∈ Dict.keys d <-> k ∈ ["profile_drag_coefficient"]) /\
    validate_analysis_specific_options "Airplane" avl (default [] (lookup_analysis [] avl))
    = Ok d.
Proof.
  apply (get_analysis_specific_options_after_init (Fuselage := unit)
           wing_area wing_mac wing_span "Firefly" Airplane.default_xyz_ref None None
           VNone VNone VNone []).
  - reflexivity.
  - split; [reflexivity|]. intros k Hk. apply list_elem_of_singleton in Hk as ->. by eexists.
  - intros an' user Hin. by apply elem_of_nil in Hin.
Defined.

Lemma airplane_init_swallows_index_error_of_wing_methods_witness :
  Airplane.init (Fuselage := unit) wing_area no_chord wing_span
    "Firefly" Airplane.default_xyz_ref (Some [(2, 1, 4)%float]) None VNone VNone VNone
    Airplane.default_analysis_specific_options
  = Ok (Airplane.Build "Firefly" Airplane.default_xyz_ref [(2, 1, 4)%float] []
          (VFloat 2) VNone VNone []).
Proof.
  apply (proj1 (proj2 (airplane_init_swallows_index_error_of_wing_methods (Fuselage := unit)
                  wing_area no_chord wing_span "Firefly" Airplane.default_xyz_ref
                  (2, 1, 4)%float [] None VNone VNone)) (VFloat 2)); reflexivity.
Defined.

Lemma airplane_init_given_reference_values_witness :
  Airplane.init (Fuselage := unit) wing_area no_chord wing_span
    "Firefly" Airplane.default_xyz_ref (Some [(2, 1, 4)%float]) None
    (VFloat 3) (VInt 1) (VFloat 5) []
  = (parsed ← parse_analysis_specific_options "Airplane" [];
     Ok (Airplane.Build "Firefly" Airplane.default_xyz_ref
           (default [] (Some [(2, 1, 4)%float])) (default [] None)
           (VFloat 3) (VInt 1) (VFloat 5) parsed)).
Proof.
  apply (airplane_init_given_reference_values (Fuselage := unit) wing_area no_chord wing_span);
    reflexivity.
Defined.

Lemma substitute_solution_swallows_type_errors_witness :
  substitute_solution unusable 1 0 three_symbols = Returns (VRef 0) three_symbols.
Proof.
  apply (substitute_solution_swallows_type_errors unusable 0 0 three_symbols
           [("a", VSym 0); ("n", VInt 3); ("b", VSym 1); ("c", VSym 2)]).
  - reflexivity.
  - intros k v _. right. left. reflexivity.
Defined.

Lemma substitute_solution_stops_at_first_error_witness :
  substitute_solution partial 1 0 three_symbols
  = Raises RuntimeError
      (<[0 := Instance (solved_dict partial [("a", VSym 0); ("n", VInt 3)]
                        ++ ("b", VSym 1) :: [("c", VSym 2)])]> three_symbols).
Proof.
  apply (substitute_solution_stops_at_first_error partial 0 0 three_symbols
           [("a", VSym 0); ("n", VInt 3)] "b" (VSym 1) [("c", VSym 2)] RuntimeError).
  - reflexivity.
  - cbn. compute_done.
  - intros k' v' Hin. apply elem_of_cons in Hin as [[= -> ->]|Hin].
    + right. by eexists.
    + apply list_elem_of_singleton in Hin as [= -> ->]. by left.
  - reflexivity.
  - reflexivity.
  - discriminate.
  - discriminate.
  - discriminate.
Defined.

Lemma substitute_solution_turns_tuples_into_lists_witness :
  exists h',
    substitute_solution MyAnalysis.value 2 0 plane_store = Returns (VRef 0) h' /\
    attr h' 0 "chords"
    = Some (VList (List.map (solved MyAnalysis.value) [VSym 1; VFloat 2])) /\
    attr h' 0 "chords" <> attr plane_store 0 "chords".
Proof.
  apply (substitute_solution_turns_tuples_into_lists MyAnalysis.value plane_rank 2
           plane_store 0
           [("alpha", VSym 0); ("n", VInt 3); ("chords", VTuple [VSym 1; VFloat 2]);
            ("wing", VRef 1); ("name", VStr "plane")]).
  - exact value_evaluates.
  - check_distinct_keys.
  - check_ranked.
  - cbn. lia.
  - reflexivity.
  - reflexivity.
Defined.

Lemma init_wrapped_standalone_propagates_errors_witness :
  init_wrapped failing_solve MyAnalysis.x_shape 5 MyAnalysis.init_method 0 None fresh_analysis
  = Raises RuntimeError
      (World (after_init false) (calls fresh_analysis ++ [CallSolve 1])).
Proof.
  apply (proj2 (init_wrapped_standalone_propagates_errors
                  failing_solve MyAnalysis.x_shape 5 MyAnalysis.init_method 0 fresh_analysis
                  1 with_environment (after_init false) RuntimeError
                  ltac:(vm_compute; reflexivity)) (VBool false) my_problem).
  - vm_compute. reflexivity.
  - reflexivity.
  - reflexivity.
  - reflexivity.
  - vm_compute. reflexivity.
  - discriminate.
  - reflexivity.
Defined.

Lemma is_entirely_symmetric_order_witness :
  is_entirely_symmetric (plane_of [main_wing; fin]) = Ok true <->
  is_entirely_symmetric (plane_of [fin; main_wing]) = Ok true.
Proof.
  apply (proj1 (is_entirely_symmetric_order (plane_of [main_wing; fin])
                  (plane_of [fin; main_wing]))).
  apply perm_swap.
Defined.

Lemma is_entirely_symmetric_mirrored_wings_witness :
  is_entirely_symmetric (plane_of [main_wing])
  = Ok (forallb (fun wing =>
          match wing_is_entirely_symmetric wing with Ok b => b | Raise _ => false end
          && forallb (fun xsec => control_surface_is_symmetric xsec
                                  || is_zero (control_surface_deflection xsec))
                     (xsecs wing))
          (Airplane.wings (plane_of [main_wing]))).
Proof.
  apply (is_entirely_symmetric_mirrored_wings (plane_of [main_wing])).
  repeat constructor. by eexists.
Defined.

Lemma aerodynamic_center_without_wings_witness :
  aerodynamic_center (plane_of []) 0x1p-2 = Raise ZeroDivisionError.
Proof.
  apply (proj1 (aerodynamic_center_without_wings (plane_of []) 0x1p-2)). reflexivity.
Defined.

(** The mirrored wing passes although its airfoil cannot be evaluated; the
    same cross-sections on a wing that is not mirrored make the test fail
    with the airfoil's exception. *)
Example is_entirely_symmetric_examples :
  is_entirely_symmetric (plane_of [main_wing; fin]) = Ok true /\
  is_entirely_symmetric
    (plane_of [{| xsecs := [root broken_airfoil 0]; symmetric := false;
                  wing_is_entirely_symmetric := Ok true;
                  area_projected := Ok 2%float;
                  wing_aerodynamic_center := Ok (0, 0, 0)%float |}])
  = Raise TypeError /\
  is_entirely_symmetric (plane_of [{| xsecs := [root flat_airfoil 3]; symmetric := true;
                  wing_is_entirely_symmetric := Ok true;
                  area_projected := Ok 2%float;
                  wing_aerodynamic_center := Ok (0, 0, 0)%float |}])
  = Ok false.
Proof. split_and!; vm_compute; reflexivity. Qed.

Lemma substitute_solution_depth_irrelevant_witness :
  substitute_solution MyAnalysis.value 7 0 plane_store
  = substitute_solution MyAnalysis.value 2 0 plane_store.
Proof.
  apply (substitute_solution_depth_irrelevant MyAnalysis.value 2 7 0 plane_store).
  - lia.
  - vm_compute. discriminate.
Defined.

Lemma substitute_solution_self_reference_never_returns_witness :
  substitute_solution MyAnalysis.value 1000 0 self_owned = TooDeep.
Proof.
  apply (substitute_solution_self_reference_never_returns MyAnalysis.value 1000 0 self_owned
           [("n", VInt 1)] "parent" [("x", VSym 0)]).
  - reflexivity.
  - cbn. compute_done.
  - repeat constructor.
  - reflexivity.
Defined.

Lemma validate_ignores_order_of_user_options_witness :
  validate_analysis_specific_options "Airplane" vlm
    [("chordwise_resolution", VInt 4); ("spanwise_resolution", VInt 20)]
  = Ok [("spanwise_resolution", VInt 20); ("chordwise_resolution", VInt 4)].
Proof.
  apply (validate_ignores_order_of_user_options "Airplane" vlm
           [("spanwise_resolution", VInt 20); ("chordwise_resolution", VInt 4)]).
  - cbn. compute_done.
  - apply perm_swap.
  - reflexivity.
Defined.
